(** * Phobos rover controller: command server, camera relay, image encoder

    A shallow embedding of
    [controllers/phobos_rover_v02_controller/phobos_rover_v02_controller.py]
    and the properties of its command handler, its actuation code, its
    camera relay loop and its image encoder.

    Python objects are values of [pyval]; a Python [dict] is an association
    list in insertion order with unique keys; an exception is the [Raise]
    outcome of a state-passing computation, the state keeping every effect
    that happened before the exception. *)

From Stdlib Require Import ZArith String Ascii Strings.Byte SpecFloat Lia.
From stdpp Require Import base list strings.

(** ** Python values *)

#[local] Set Warnings "-register-all".

(** The objects the controller handles: what [json.loads] returns
    ([None], [bool], [int], [float], [str], [list], [dict] with string
    keys) and the [bytes] of a raw framebuffer.  A [float] is an IEEE-754
    value, never computed with here, only passed on. *)
Inductive pyval : Type :=
| PNone
| PBool (b : bool)
| PInt (z : Z)
| PFloat (f : spec_float)
| PStr (s : string)
| PBytes (bs : list byte)
| PList (l : list pyval)
| PDict (d : list (string * pyval)).

(** [0.0] and [float('inf')]. *)
Definition float_zero : pyval := PFloat (S754_zero false).
Definition float_inf : pyval := PFloat (S754_infinity false).

Inductive exn : Type :=
| KeyError | TypeError | AttributeError | IndexError | ValueError
| ZMQError | CodecError.

Inductive outcome (A : Type) : Type :=
| Ret (a : A)
| Raise (e : exn).
Arguments Ret {A} a.
Arguments Raise {A} e.

(** A computation over a state [S]: the state comes back in both outcomes. *)
Definition M (S A : Type) : Type := S -> outcome A * S.

Definition ret {S A} (a : A) : M S A := fun s => (Ret a, s).
Definition bind {S A B} (m : M S A) (k : A -> M S B) : M S B :=
  fun s => match m s with
           | (Ret a, s') => k a s'
           | (Raise e, s') => (Raise e, s')
           end.
Definition lift {S A} (o : outcome A) : M S A := fun s => (o, s).

#[global] Instance M_ret {S} : MRet (M S) := fun A a => ret a.
#[global] Instance M_bind {S} : MBind (M S) := fun A B k m => bind m k.

(** ** Dictionaries *)

Module Dict.
Definition t : Type := list (string * pyval).

Fixpoint get (d : t) (k : string) : option pyval :=
  match d with
  | [] => None
  | (k', v) :: d' => if String.eqb k' k then Some v else get d' k
  end.

(** [d[k] = v]: overwrite in place, or append a new key. *)
Fixpoint set (d : t) (k : string) (v : pyval) : t :=
  match d with
  | [] => [(k, v)]
  | (k', v') :: d' =>
      if String.eqb k' k then (k', v) :: d' else (k', v') :: set d' k v
  end.

Definition keys (d : t) : list string := map fst d.

(** The invariant of a Python dict: no key twice. *)
Definition wf (d : t) : Prop := NoDup (keys d).
End Dict.

(** [v[k]] for a string key. *)
Definition getitem (v : pyval) (k : string) : outcome pyval :=
  match v with
  | PDict d => match Dict.get d k with
               | Some x => Ret x
               | None => Raise KeyError
               end
  | _ => Raise TypeError
  end.

(** [v.items()]. *)
Definition items (v : pyval) : outcome Dict.t :=
  match v with
  | PDict d => Ret d
  | _ => Raise AttributeError
  end.

(** ** Constants *)

Definition act_id_motor_group_index_map : list (string * nat) :=
  [ ("DrvFL", 0); ("DrvML", 1); ("DrvRL", 2);
    ("DrvFR", 3); ("DrvMR", 4); ("DrvRR", 5);
    ("StrFL", 0); ("StrML", 1); ("StrRL", 2);
    ("StrFR", 3); ("StrMR", 4); ("StrRR", 5);
    ("ArmBase", 0); ("ArmShoulder", 1); ("ArmElbow", 2);
    ("ArmWrist", 3); ("ArmGrabber", 4) ]%string.

Arguments act_id_motor_group_index_map : simpl never.

Fixpoint assoc (m : list (string * nat)) (k : string) : option nat :=
  match m with
  | [] => None
  | (k', i) :: m' => if String.eqb k' k then Some i else assoc m' k
  end.

(** [act_id_motor_group_index_map[act_id]]. *)
Definition index_of (act_id : string) : outcome nat :=
  match assoc act_id_motor_group_index_map act_id with
  | Some i => Ret i
  | None => Raise KeyError
  end.

(** The seventeen recognised actuator ids. *)
Definition known_ids : list string := map fst act_id_motor_group_index_map.

(** ** Motors, sockets, the controller's world *)

(** A [Motor] of the simulator, as a recording double: each setter stores
    its argument as the setpoint. *)
Record motor : Type := Motor { position : pyval; velocity : pyval }.

Definition set_position (x : pyval) (m : motor) : motor :=
  Motor x (velocity m).
Definition set_velocity (x : pyval) (m : motor) : motor :=
  Motor (position m) x.

(** What arrives on a reply socket: a socket-layer failure, a text that
    [recv_string] or [json.loads] rejects, or a text that decodes. *)
Inductive frame : Type :=
| Fault
| Garbled
| Json (v : pyval).

(** A [zmq.REP] socket: receive and send alternate strictly. *)
Record rep_socket : Type :=
  RepSocket { inbox : list frame; awaiting_reply : bool }.

(** The outcome of the [try] block around [recv_string] and [json.loads]. *)
Inductive recv_result : Type :=
| Again
| ZmqErr
| OtherExc
| Loaded (v : pyval).

Definition recv_json (s : rep_socket) : recv_result * rep_socket :=
  if awaiting_reply s then (ZmqErr, s)
  else match inbox s with
       | [] => (Again, s)
       | Fault :: q => (ZmqErr, RepSocket q false)
       | Garbled :: q => (OtherExc, RepSocket q true)
       | Json v :: q => (Loaded v, RepSocket q true)
       end.

Inductive group : Type := Str | Drv.

(** The calls the command handler makes, in order. *)
Inductive event : Type :=
| SetPosition (g : group) (i : nat) (x : pyval)
| SetVelocity (g : group) (i : nat) (x : pyval)
| SendString (msg : string).

Record world : Type :=
  World { str_motors : list motor;
          drv_motors : list motor;
          mech_rep : rep_socket;
          calls : list event }.

Definition motors_of (g : group) (w : world) : list motor :=
  match g with Str => str_motors w | Drv => drv_motors w end.

Definition with_motors (g : group) (ms : list motor) (w : world) : world :=
  match g with
  | Str => World ms (drv_motors w) (mech_rep w) (calls w)
  | Drv => World (str_motors w) ms (mech_rep w) (calls w)
  end.

Definition log (e : event) (w : world) : world :=
  World (str_motors w) (drv_motors w) (mech_rep w) (calls w ++ [e]).

(** [self.<g>_motors[i].setPosition(x)]; indexing past the end raises. *)
Definition setPosition (g : group) (i : nat) (x : pyval) : M world unit :=
  fun w =>
    if decide (i < length (motors_of g w)) then
      (Ret tt, log (SetPosition g i x)
                 (with_motors g (alter (set_position x) i (motors_of g w)) w))
    else (Raise IndexError, w).

Definition setVelocity (g : group) (i : nat) (x : pyval) : M world unit :=
  fun w =>
    if decide (i < length (motors_of g w)) then
      (Ret tt, log (SetVelocity g i x)
                 (with_motors g (alter (set_velocity x) i (motors_of g w)) w))
    else (Raise IndexError, w).

(** [mech_rep.send_string(msg)]: legal only when a request awaits its reply. *)
Definition send_string (msg : string) : M world unit :=
  fun w =>
    if awaiting_reply (mech_rep w) then
      (Ret tt, log (SendString msg)
                 (World (str_motors w) (drv_motors w)
                    (RepSocket (inbox (mech_rep w)) false) (calls w)))
    else (Raise ZMQError, w).

(** ** [PhobosRoverController] *)

(** [act_id[:3]].  Ids are compared with ASCII literals only, so taking
    three bytes of the UTF-8 text decides the same tests as taking three
    code points. *)
Definition prefix3 (act_id : string) : string := substring 0 3 act_id.
Arguments prefix3 : simpl never.

Fixpoint actuate_pos (pos : Dict.t) : M world unit :=
  match pos with
  | [] => ret tt
  | (act_id, position_rad) :: rest =>
      (if String.eqb (prefix3 act_id) "Str" then
         i ← lift (index_of act_id);
         setPosition Str i position_rad
       else ret tt);;
      actuate_pos rest
  end.

Fixpoint actuate_speed (speed : Dict.t) : M world unit :=
  match speed with
  | [] => ret tt
  | (act_id, speed_rads) :: rest =>
      (if String.eqb (prefix3 act_id) "Drv" then
         i ← lift (index_of act_id);
         setPosition Drv i float_inf;;
         setVelocity Drv i speed_rads
       else ret tt);;
      actuate_speed rest
  end.

Definition actuate_mech_dems (dems : pyval) : M world unit :=
  p ← lift (getitem dems "pos_rad");
  pos ← lift (items p);
  actuate_pos pos;;
  s ← lift (getitem dems "speed_rads");
  speed ← lift (items s);
  actuate_speed speed.

(** [for drv in self.drv_motors: drv.setVelocity(0.0)] *)
Definition stop : M world unit :=
  fun w =>
    (Ret tt,
     World (str_motors w)
       (map (set_velocity float_zero) (drv_motors w))
       (mech_rep w)
       (calls w ++ map (fun i => SetVelocity Drv i float_zero)
                       (seq 0 (length (drv_motors w))))).

(** ** [handle_mech] *)

Definition dquote : ascii := "034"%char.

(** The Python literal ['"DemsOk"']: the JSON text of the string DemsOk. *)
Definition DemsOk : string := String dquote ("DemsOk" +:+ String dquote "").

Definition mech_recv : M world recv_result :=
  fun w =>
    let (r, s) := recv_json (mech_rep w) in
    (Ret r, World (str_motors w) (drv_motors w) s (calls w)).

Definition handle_mech : M world bool :=
  r ← mech_recv;
  let '(stop_flag, mech_dems) :=
    match r with
    | Loaded v => (false, v)
    | Again => (false, PNone)
    | ZmqErr => (true, PNone)
    | OtherExc => (true, PNone)
    end in
  match mech_dems with
  | PNone => if stop_flag then stop else ret tt
  | _ => send_string DemsOk;; actuate_mech_dems mech_dems
  end;;
  ret true.

(** ** Image encoder *)

#[global] Instance outcome_ret : MRet outcome := fun A a => Ret a.
#[global] Instance outcome_bind : MBind outcome :=
  fun A B k o => match o with Ret a => k a | Raise e => Raise e end.

(** A [uint8] array of shape [(height, width, 4)], row-major. *)
Record ndarray : Type :=
  NdArray { nd_height : Z; nd_width : Z; nd_data : list byte }.

(** [np.frombuffer(raw, np.uint8)] *)
Definition frombuffer (raw : pyval) : outcome (list byte) :=
  match raw with
  | PBytes bs => Ret bs
  | _ => Raise TypeError
  end.

(** The largest [npy_intp]. *)
Definition intp_max : Z := 9223372036854775807.

(** A Python object as a dimension of an array over a buffer of [n] bytes:
    an [int] in the range of [npy_intp].  numpy refuses a [bool] and every
    other type with [TypeError] and an [int] out of range with
    [ValueError].  A buffer has at most [intp_max] bytes, so that the upper
    bound [Z.max intp_max n] is [intp_max] on every buffer there is. *)
Definition as_index (n : Z) (v : pyval) : outcome Z :=
  match v with
  | PInt z =>
      if (- intp_max - 1 <=? z)%Z && (z <=? Z.max intp_max n)%Z then Ret z
      else Raise ValueError
  | _ => Raise TypeError
  end.

(** [buf.reshape((h, w, 4))] on converted dimensions.  A negative
    dimension is inferred from the size of the buffer, and only one may
    be negative; the inferred shape must divide the size, the given one
    must have it; a shape whose dimensions other than zero make more than
    [intp_max] bytes is refused.  Every refusal is a [ValueError]. *)
Definition reshape (buf : list byte) (h w : Z) : outcome ndarray :=
  let n := Z.of_nat (length buf) in
  if (h <? 0)%Z && (w <? 0)%Z then Raise ValueError
  else if (h <? 0)%Z then
    if (0 <? w)%Z && (w * 4 <=? intp_max)%Z && (n mod (w * 4) =? 0)%Z
    then Ret (NdArray (n / (w * 4)) w buf)
    else Raise ValueError
  else if (w <? 0)%Z then
    if (0 <? h)%Z && (h * 4 <=? intp_max)%Z && (n mod (h * 4) =? 0)%Z
    then Ret (NdArray h (n / (h * 4)) buf)
    else Raise ValueError
  else if (h * w * 4 =? n)%Z then
    if (0 <? h)%Z && (0 <? w)%Z
       || (h * 4 <=? intp_max)%Z && (w * 4 <=? intp_max)%Z
    then Ret (NdArray h w buf)
    else Raise ValueError
  else Raise ValueError.

(** The index list of [np_array[..., [2,1,0,3]]]. *)
Definition channel_order : list nat := [2; 1; 0; 3].

Fixpoint reindex_channels (data : list byte) : list byte :=
  match data with
  | c0 :: c1 :: c2 :: c3 :: rest =>
      map (fun k => nth k [c0; c1; c2; c3] x00) channel_order
        ++ reindex_channels rest
  | _ => []
  end.

Definition bgra_to_rgba (a : ndarray) : ndarray :=
  NdArray (nd_height a) (nd_width a) (reindex_channels (nd_data a)).

(** *** [base64.b64encode] *)

Definition b64_alphabet : string :=
  "ABCDEFGHIJKLMNOPQRSTUVWXYZabcdefghijklmnopqrstuvwxyz0123456789+/".

Definition b64_pad : ascii := "="%char.

Definition b64_char (n : N) : ascii :=
  match String.get (N.to_nat n) b64_alphabet with
  | Some c => c
  | None => b64_pad
  end.

Definition sextets3 (a b c : byte) : list N :=
  let n := (Byte.to_N a * 65536 + Byte.to_N b * 256 + Byte.to_N c)%N in
  [ (n / 262144) mod 64; (n / 4096) mod 64; (n / 64) mod 64; n mod 64 ]%N.

Fixpoint b64encode (bs : list byte) : list ascii :=
  match bs with
  | [] => []
  | [a] => take 2 (map b64_char (sextets3 a x00 x00)) ++ [b64_pad; b64_pad]
  | [a; b] => take 3 (map b64_char (sextets3 a b x00)) ++ [b64_pad]
  | a :: b :: c :: rest => map b64_char (sextets3 a b c) ++ b64encode rest
  end.

(** The reader's side: [base64.b64decode]. *)
Fixpoint b64_index_from (n : N) (alphabet : list ascii) (c : ascii) : option N :=
  match alphabet with
  | [] => None
  | x :: rest => if Ascii.eqb x c then Some n
                 else b64_index_from (N.succ n) rest c
  end.

Definition b64_index (c : ascii) : option N :=
  b64_index_from 0 (list_ascii_of_string b64_alphabet) c.

Definition bytes_of_group (s0 s1 s2 s3 : N) : option (list byte) :=
  let n := (s0 * 262144 + s1 * 4096 + s2 * 64 + s3)%N in
  a ← Byte.of_N (n / 65536);
  b ← Byte.of_N ((n / 256) mod 256);
  c ← Byte.of_N (n mod 256);
  Some [a; b; c].

Fixpoint b64decode (s : list ascii) : option (list byte) :=
  match s with
  | [] => Some []
  | c0 :: c1 :: c2 :: c3 :: rest =>
      s0 ← b64_index c0;
      s1 ← b64_index c1;
      if Ascii.eqb c3 b64_pad then
        match rest with
        | [] =>
            if Ascii.eqb c2 b64_pad then
              take 1 <$> bytes_of_group s0 s1 0 0
            else
              s2 ← b64_index c2;
              take 2 <$> bytes_of_group s0 s1 s2 0
        | _ => None
        end
      else
        s2 ← b64_index c2;
        s3 ← b64_index c3;
        g ← bytes_of_group s0 s1 s2 s3;
        tl ← b64decode rest;
        Some (g ++ tl)
  | _ => None
  end.

(** *** [json.dumps] *)

(** What [json.dumps] accepts: everything but [bytes]. *)
Fixpoint serializable (v : pyval) : bool :=
  match v with
  | PBytes _ => false
  | PList l => forallb serializable l
  | PDict d => forallb (fun kv => let '(_, x) := kv in serializable x) d
  | _ => true
  end.

(** ** Camera relay process *)

(** What the relay process does, in order. *)
Inductive relay_event : Type :=
| PipeRecv (msg : pyval)
| ClientRecv (r : recv_result)
| PipeSend (req : pyval)
| ClientSend (res : pyval)
| PipeClose.

Record relay : Type :=
  Relay { cam_rep : rep_socket;
          cam_pipe : list pyval;
          handling_req : bool;
          trace : list relay_event }.

Definition emit (e : relay_event) : M relay unit :=
  fun r => (Ret tt, Relay (cam_rep r) (cam_pipe r) (handling_req r)
                          (trace r ++ [e])).

Definition set_handling_req (b : bool) : M relay unit :=
  fun r => (Ret tt, Relay (cam_rep r) (cam_pipe r) b (trace r)).

Definition get_handling_req : M relay bool :=
  fun r => (Ret (handling_req r), r).

(** [if cam_pipe.poll(): msg = cam_pipe.recv()] *)
Definition pipe_poll_recv : M relay (option pyval) :=
  fun r =>
    match cam_pipe r with
    | [] => (Ret None, r)
    | msg :: q =>
        (Ret (Some msg),
         Relay (cam_rep r) q (handling_req r) (trace r ++ [PipeRecv msg]))
    end.

(** The [try] block around [cam_rep.recv_string] and [json.loads]. *)
Definition cam_recv : M relay recv_result :=
  fun r =>
    let (x, s) := recv_json (cam_rep r) in
    (Ret x, Relay s (cam_pipe r) (handling_req r) (trace r ++ [ClientRecv x])).

(** [cam_rep.send_string(json.dumps(res))] *)
Definition cam_send (res : pyval) : M relay unit :=
  fun r =>
    if serializable res then
      if awaiting_reply (cam_rep r) then
        (Ret tt,
         Relay (RepSocket (inbox (cam_rep r)) false) (cam_pipe r)
               (handling_req r) (trace r ++ [ClientSend res]))
      else (Raise ZMQError, r)
    else (Raise TypeError, r).

Section Encoder.

(** [Image.fromarray(a)] saved with [image.save(buf, format=name)]:
    the bytes written, or the exception of either call.  The source builds
    the image before it reads the format specifier and saves it after. *)
Variable image_save : string -> ndarray -> outcome (list byte).

(** The format name [image.save] is given. *)
Definition format_name (fmt : pyval) : outcome string :=
  match fmt with
  | PStr name => Ret name
  | PDict ((name, _) :: _) => Ret name
  | PDict [] => Raise IndexError
  | _ => Raise AttributeError
  end.

(** The bytes of the encoded image of one camera. *)
Definition encode_image (cam_data data : pyval) : outcome (list byte) :=
  raw ← getitem data "raw";
  buf ← frombuffer raw;
  height ← getitem data "height";
  width ← getitem data "width";
  h ← as_index (Z.of_nat (length buf)) height;
  w ← as_index (Z.of_nat (length buf)) width;
  np_array ← reshape buf h w;
  let np_array := bgra_to_rgba np_array in
  fmt ← getitem cam_data "format";
  name ← format_name fmt;
  image_save name np_array.

(** One turn of the loop body for a camera id: the entry of the reply. *)
Definition encode_camera (cam_data data : pyval) : outcome pyval :=
  img_bytes ← encode_image cam_data data;
  timestamp ← getitem data "timestamp";
  fmt ← getitem cam_data "format";
  Ret (PDict [ ("timestamp", timestamp);
               ("format", fmt);
               ("b64_data",
                 PStr (string_of_list_ascii (b64encode img_bytes))) ]%string).

Fixpoint build_res (cam_data : pyval) (its : Dict.t) (res : Dict.t)
  : outcome Dict.t :=
  match its with
  | [] => Ret res
  | (cam_id, data) :: rest =>
      if String.eqb cam_id "format" then build_res cam_data rest res
      else
        entry ← encode_camera cam_data data;
        build_res cam_data rest (Dict.set res cam_id entry)
  end.

Definition handle_cam_send (cam_data : pyval) : M relay unit :=
  its ← lift (items cam_data);
  res ← lift (build_res cam_data its []);
  cam_send (PDict res).

(** ** [cam_process] *)

Inductive status : Type := Running | Stopped.

(** [isinstance(msg, str)] and [msg == 'STOP'] *)
Definition is_stop (msg : option pyval) : bool :=
  match msg with
  | Some (PStr s) => String.eqb s "STOP"
  | _ => false
  end.

(** One turn of the [while run_process] loop. *)
Definition cam_iter : M relay status :=
  msg ← pipe_poll_recv;
  if is_stop msg then ret Stopped
  else
    match msg with
    | Some (PDict d) => handle_cam_send (PDict d);; set_handling_req false
    | _ => ret tt
    end;;
    handling ← get_handling_req;
    if (handling : bool) then ret Running
    else
      r ← cam_recv;
      match (r : recv_result) with
      | Loaded PNone => ret Running
      | Loaded cam_req =>
          emit (PipeSend cam_req);;
          set_handling_req true;;
          ret Running
      | _ => ret Running
      end.

(** What reaches the relay between two turns of its loop. *)
Record arrival : Type :=
  Arrival { from_main : list pyval; from_client : list frame }.

Definition deliver (a : arrival) : M relay unit :=
  fun r =>
    (Ret tt,
     Relay (RepSocket (inbox (cam_rep r) ++ from_client a)
                      (awaiting_reply (cam_rep r)))
           (cam_pipe r ++ from_main a) (handling_req r) (trace r)).

(** The loop over a schedule of arrivals, one turn for each. *)
Fixpoint cam_loop (env : list arrival) : M relay status :=
  match env with
  | [] => ret Running
  | a :: env' =>
      deliver a;;
      s ← cam_iter;
      match (s : status) with
      | Stopped => ret Stopped
      | Running => cam_loop env'
      end
  end.

Definition cam_process (env : list arrival) : M relay status :=
  s ← cam_loop env;
  match (s : status) with
  | Stopped => emit PipeClose;; ret Stopped
  | Running => ret Running
  end.

End Encoder.

(** The relay as [cam_process] starts it. *)
Definition relay_init : relay := Relay (RepSocket [] false) [] false [].

(** A stand-in codec, lossless for every format name: the two dimensions
    in unary, each closed by a zero byte, then the pixel bytes. *)
Definition plain_save (_ : string) (a : ndarray) : outcome (list byte) :=
  Ret (replicate (Z.to_nat (nd_height a)) x01 ++ x00
         :: replicate (Z.to_nat (nd_width a)) x01 ++ x00 :: nd_data a).

Fixpoint split_unary (bs : list byte) : option (nat * list byte) :=
  match bs with
  | [] => None
  | x :: rest =>
      if Byte.eqb x x00 then Some (0, rest)
      else '(n, r) ← split_unary rest; Some (S n, r)
  end.

Definition plain_open (bs : list byte) : option ndarray :=
  '(h, r) ← split_unary bs;
  '(w, data) ← split_unary r;
  Some (NdArray (Z.of_nat h) (Z.of_nat w) data).

(** ** [init_eqpt] *)

Definition str_motor_order : list string :=
  ["fl_gimbal"; "ml_gimbal"; "rl_gimbal";
   "fr_gimbal"; "mr_gimbal"; "rr_gimbal"]%string.

Definition drv_motor_order : list string :=
  ["fl_drive"; "ml_drive"; "rl_drive";
   "fr_drive"; "mr_drive"; "rr_drive"]%string.

(** A [Camera] or [RangeFinder] of the simulator, as a double: what each
    getter returns, or the exception it raises. *)
Record camera : Type :=
  Camera { getImage : outcome pyval;
           getHeight : outcome pyval;
           getWidth : outcome pyval }.

Section Init.

Variable getCamera : string -> camera.
Variable getRangeFinder : string -> camera.
Variable getMotor : string -> motor.

(** [self.cameras], in the order the keys are inserted. *)
Definition init_cameras : list (string * camera) :=
  [ ("LeftNav", getCamera "l_cam");
    ("RightNav", getCamera "r_cam");
    ("LeftDepth", getRangeFinder "l_depth") ]%string.

(** The motors of [init_eqpt], before any call on the command socket
    [mech_rep]. *)
Definition init_eqpt (mech_rep : rep_socket) : world :=
  World (map getMotor str_motor_order) (map getMotor drv_motor_order)
        mech_rep [].

End Init.

(** ** [handle_cam_req] *)

(** The main process's side of the camera relay: the cameras, the
    requests waiting on its end of the pipe, what it has sent on the pipe,
    and the clock: [now k] is the value of [int(round(time.time() * 1000))]
    at the [k]-th reading. *)
Record host : Type :=
  Host { cameras : list (string * camera);
         host_pipe : list pyval;
         host_sent : list pyval;
         now : nat -> Z;
         readings : nat }.

(** [if cam_pipe.poll(): cam_req = cam_pipe.recv()] *)
Definition host_poll_recv : M host (option pyval) :=
  fun h =>
    match host_pipe h with
    | [] => (Ret None, h)
    | msg :: q =>
        (Ret (Some msg),
         Host (cameras h) q (host_sent h) (now h) (readings h))
    end.

(** [cam_pipe.send(msg)] *)
Definition host_send (msg : pyval) : M host unit :=
  fun h =>
    (Ret tt,
     Host (cameras h) (host_pipe h) (host_sent h ++ [msg]) (now h) (readings h)).

(** [int(round(time.time() * 1000))] *)
Definition read_clock : M host Z :=
  fun h =>
    (Ret (now h (readings h)),
     Host (cameras h) (host_pipe h) (host_sent h) (now h) (S (readings h))).

(** A byte that continues a UTF-8 sequence. *)
Definition is_continuation (c : ascii) : bool :=
  (128 <=? nat_of_ascii c) && (nat_of_ascii c <? 192).

(** The characters of a [str], one string for each code point of its
    UTF-8 text. *)
Fixpoint code_points (s : string) : list string :=
  match s with
  | EmptyString => []
  | String c rest =>
      match rest with
      | String d _ =>
          if is_continuation d then
            match code_points rest with
            | g :: gs => String c g :: gs
            | [] => [String c EmptyString]
            end
          else String c EmptyString :: code_points rest
      | EmptyString => [String c EmptyString]
      end
  end.

(** What [for x in v] runs through. *)
Definition iterate (v : pyval) : outcome (list pyval) :=
  match v with
  | PList l => Ret l
  | PDict d => Ret (map PStr (Dict.keys d))
  | PStr s => Ret (map PStr (code_points s))
  | PBytes bs => Ret (map (fun b => PInt (Z.of_N (Byte.to_N b))) bs)
  | _ => Raise TypeError
  end.

Fixpoint find_camera (cams : list (string * camera)) (name : string)
  : option camera :=
  match cams with
  | [] => None
  | (k, c) :: cams' => if String.eqb k name then Some c else find_camera cams' name
  end.

(** [cam_data[cam_id] = {}] followed by [phobos.cameras[cam_id]]: the
    camera and the key it is filed under.  A list or a dict is no
    dictionary key; any other object that is not a camera's name is a
    missing key. *)
Definition camera_of (cams : list (string * camera)) (cam_id : pyval)
  : outcome (string * camera) :=
  match cam_id with
  | PStr name =>
      match find_camera cams name with
      | Some c => Ret (name, c)
      | None => Raise KeyError
      end
  | PList _ | PDict _ => Raise TypeError
  | _ => Raise KeyError
  end.

(** The body of [for cam_id in cam_req['cameras']]. *)
Fixpoint capture (ids : list pyval) (cam_data : Dict.t) : M host Dict.t :=
  match ids with
  | [] => ret cam_data
  | cam_id :: rest =>
      cams ← (fun h => (Ret (cameras h), h));
      '(name, cam) ← lift (camera_of cams cam_id);
      raw ← lift (getImage cam);
      timestamp ← read_clock;
      height ← lift (getHeight cam);
      width ← lift (getWidth cam);
      capture rest
        (Dict.set cam_data name
           (PDict [ ("raw", raw); ("timestamp", PInt timestamp);
                    ("height", height); ("width", width) ]%string))
  end.

Definition handle_cam_req : M host unit :=
  polled ← host_poll_recv;
  match (polled : option pyval) with
  | None => ret tt
  | Some cam_req =>
      fmt ← lift (getitem cam_req "format");
      ids ← lift (getitem cam_req "cameras" ≫= iterate);
      cam_data ← capture ids [("format", fmt)]%string;
      host_send (PDict cam_data)
  end.

(** ** [step] and [run] *)

(** The main process: the rover with its command socket, and its side of
    the camera relay. *)
Record controller : Type :=
  Controller { rover_of : world; host_of : host }.

Definition on_rover {A} (m : M world A) : M controller A :=
  fun c => let (o, w) := m (rover_of c) in (o, Controller w (host_of c)).

Definition on_host {A} (m : M host A) : M controller A :=
  fun c => let (o, h) := m (host_of c) in (o, Controller (rover_of c) h).

(** What one turn of the main loop meets: the frames that have reached
    the command socket, the requests the relay has put on the pipe, and
    whether [phobos.step(...)] returns something other than [-1]. *)
Record tick : Type :=
  Tick { mech_frames : list frame;
         cam_requests : list pyval;
         step_ok : bool }.

Definition arrive (t : tick) : M controller unit :=
  fun c =>
    let w := rover_of c in
    let h := host_of c in
    (Ret tt,
     Controller
       (World (str_motors w) (drv_motors w)
              (RepSocket (inbox (mech_rep w) ++ mech_frames t)
                         (awaiting_reply (mech_rep w)))
              (calls w))
       (Host (cameras h) (host_pipe h ++ cam_requests t) (host_sent h)
             (now h) (readings h))).

(** The [while run_controller] loop over a schedule of turns. *)
Fixpoint run_loop (ticks : list tick) : M controller status :=
  match ticks with
  | [] => ret Running
  | t :: ticks' =>
      arrive t;;
      run_controller ← on_rover handle_mech;
      on_host handle_cam_req;;
      let run_controller := step_ok t in
      if run_controller then run_loop ticks' else ret Stopped
  end.

(** [run] from the loop on: once the loop is left, [STOP] goes to the
    camera process. *)
Definition run (ticks : list tick) : M controller status :=
  s ← run_loop ticks;
  match (s : status) with
  | Stopped => on_host (host_send (PStr "STOP"));; ret Stopped
  | Running => ret Running
  end.

(** ** Vocabulary of the statements *)

(** A rover as [init_eqpt] builds it: six steering and six drive motors. *)
Definition six_wheeled (w : world) : Prop :=
  length (str_motors w) = 6 /\ length (drv_motors w) = 6.

(** The ids of a demand that the loop for class [cls] acts on are in the
    index map. *)
Definition ids_ok (cls : string) (d : Dict.t) : Prop :=
  Forall (fun kv => prefix3 (fst kv) = cls -> In (fst kv) known_ids) d.

(** The steering motors after the position demands, and the calls made. *)
Fixpoint apply_pos (pos : Dict.t) (ms : list motor) : list motor :=
  match pos with
  | [] => ms
  | (act_id, x) :: rest =>
      match assoc act_id_motor_group_index_map act_id with
      | Some i =>
          if String.eqb (prefix3 act_id) "Str"
          then apply_pos rest (alter (set_position x) i ms)
          else apply_pos rest ms
      | None => apply_pos rest ms
      end
  end.

Fixpoint pos_calls (pos : Dict.t) : list event :=
  match pos with
  | [] => []
  | (act_id, x) :: rest =>
      match assoc act_id_motor_group_index_map act_id with
      | Some i =>
          if String.eqb (prefix3 act_id) "Str"
          then SetPosition Str i x :: pos_calls rest
          else pos_calls rest
      | None => pos_calls rest
      end
  end.

(** The drive motors after the speed demands, and the calls made. *)
Fixpoint apply_speed (speed : Dict.t) (ms : list motor) : list motor :=
  match speed with
  | [] => ms
  | (act_id, x) :: rest =>
      match assoc act_id_motor_group_index_map act_id with
      | Some i =>
          if String.eqb (prefix3 act_id) "Drv"
          then apply_speed rest
                 (alter (set_velocity x) i (alter (set_position float_inf) i ms))
          else apply_speed rest ms
      | None => apply_speed rest ms
      end
  end.

Fixpoint speed_calls (speed : Dict.t) : list event :=
  match speed with
  | [] => []
  | (act_id, x) :: rest =>
      match assoc act_id_motor_group_index_map act_id with
      | Some i =>
          if String.eqb (prefix3 act_id) "Drv"
          then SetPosition Drv i float_inf :: SetVelocity Drv i x
                 :: speed_calls rest
          else speed_calls rest
      | None => speed_calls rest
      end
  end.

(** [{"pos_rad": pos, "speed_rads": speed}] *)
Definition demand (pos speed : Dict.t) : pyval :=
  PDict [("pos_rad", PDict pos); ("speed_rads", PDict speed)]%string.

Definition is_send (e : event) : bool :=
  match e with SendString _ => true | _ => false end.

(** The world once the frame has been taken off the socket. *)
Definition received (w : world) : world :=
  World (str_motors w) (drv_motors w) (snd (recv_json (mech_rep w))) (calls w).

(** The world once the acknowledgement has gone out. *)
Definition acknowledged (w : world) : world :=
  World (str_motors w) (drv_motors w)
        (RepSocket (inbox (snd (recv_json (mech_rep w)))) false)
        (calls w ++ [SendString DemsOk]).

(** [w'] comes from [w] by calls none of which is a send. *)
Definition quiet (w w' : world) : Prop :=
  exists evs, calls w' = calls w ++ evs /\
              Forall (fun e => is_send e = false) evs.

(** A request has been forwarded to the main process and no reply has
    gone to the client since. *)
Definition outstanding (tr : list relay_event) : bool :=
  fold_left (fun b e => match e with
                        | PipeSend _ => true
                        | ClientSend _ => false
                        | _ => b
                        end) tr false.

(** The discipline of the relay, as an automaton over its events.  The
    state is the pair of "a request is outstanding" and "the reply socket
    owes a reply"; [None] is a violation. *)
Definition track (s : bool * bool) (e : relay_event) : option (bool * bool) :=
  let '(out, owes) := s in
  match e with
  | ClientRecv x =>
      if out then None
      else match x with
           | Loaded _ | OtherExc => if owes then None else Some (out, true)
           | _ => Some (out, owes)
           end
  | PipeSend _ => if out then None else Some (true, owes)
  | ClientSend _ => if owes then Some (false, false) else None
  | _ => Some (out, owes)
  end.

Fixpoint check (s : bool * bool) (tr : list relay_event) : option (bool * bool) :=
  match tr with
  | [] => Some s
  | e :: tr' => s' ← track s e; check s' tr'
  end.

(** The invariant of the loop: the trace obeys the discipline, and the
    flag and the socket agree with it. *)
Definition relay_inv (r : relay) : Prop :=
  check (false, false) (trace r) =
  Some (handling_req r, awaiting_reply (cam_rep r)).

#[global] Instance outcome_fmap : FMap outcome :=
  fun A B f o => match o with Ret a => Ret (f a) | Raise e => Raise e end.

(** A reply entry with its [format] field replaced. *)
Definition with_format (fmt : pyval) (entry : pyval) : pyval :=
  match entry with
  | PDict fields => PDict (Dict.set fields "format" fmt)
  | _ => entry
  end.

Definition map_values (f : pyval -> pyval) (d : Dict.t) : Dict.t :=
  map (fun kv => (fst kv, f (snd kv))) d.

Definition not_format (k : string) : bool := negb (String.eqb k "format").

(** A frame as [handle_cam_req] builds it from a camera: an image of
    positive height and width, raw bytes of the size the dimensions give,
    and a timestamp [json.dumps] accepts. *)
Definition frame_ok (data : pyval) : bool :=
  match data with
  | PDict d =>
      match Dict.get d "raw", Dict.get d "height", Dict.get d "width",
            Dict.get d "timestamp" with
      | Some (PBytes raw), Some (PInt h), Some (PInt w), Some ts =>
          (0 <? h)%Z && (0 <? w)%Z
          && (Z.of_nat (length raw) =? h * w * 4)%Z && serializable ts
      | _, _, _, _ => false
      end
  | _ => false
  end.

(** The array the codec is handed for a frame: the raw bytes in the
    frame's height and width, channels reindexed. *)
Definition frame_array (data : pyval) : option ndarray :=
  match data with
  | PDict d =>
      match Dict.get d "raw", Dict.get d "height", Dict.get d "width" with
      | Some (PBytes raw), Some (PInt h), Some (PInt w) =>
          Some (NdArray h w (reindex_channels raw))
      | _, _, _ => None
      end
  | _ => None
  end.

(** The codec returns on the image of the frame under the format [name]. *)
Definition codec_returns
    (image_save : string -> ndarray -> outcome (list byte))
    (name : string) (data : pyval) : Prop :=
  exists a bs, frame_array data = Some a /\ image_save name a = Ret bs.

(** The codec raises [e] on the image of the frame under the format
    [name]. *)
Definition codec_refuses
    (image_save : string -> ndarray -> outcome (list byte))
    (name : string) (e : exn) (data : pyval) : Prop :=
  exists a, frame_array data = Some a /\ image_save name a = Raise e.

(** A bundle the encoder can serve: a format specifier that names a
    format, and under every other key a well-formed frame on whose image
    the codec returns for that format. *)
Definition bundle_ok (image_save : string -> ndarray -> outcome (list byte))
    (bundle : Dict.t) : Prop :=
  exists fmt name,
    Dict.get bundle "format" = Some fmt /\
    format_name fmt = Ret name /\
    serializable fmt = true /\
    Forall (fun kv => not_format (fst kv) = true ->
                      frame_ok (snd kv) = true /\
                      codec_returns image_save name (snd kv))
           bundle.

(** The entry of the reply for a frame, as the specification has it: the
    frame's timestamp, the format specifier as it was given, and the
    base64 text of the image saved under the format name [name]. *)
Definition spec_entry (image_save : string -> ndarray -> outcome (list byte))
    (name : string) (fmt : pyval) (raw : list byte) (h w : Z) (ts : pyval)
  : outcome pyval :=
  bs ← image_save name (NdArray h w (reindex_channels raw));
  Ret (PDict [ ("timestamp", ts); ("format", fmt);
               ("b64_data", PStr (string_of_list_ascii (b64encode bs))) ]%string).

(** An outcome that is a value or one of the lookup errors of Python:
    a missing key, a wrong type, a missing attribute. *)
Definition lookup_error_only {A} (o : outcome A) : Prop :=
  match o with
  | Ret _ => True
  | Raise e => e = KeyError \/ e = TypeError \/ e = AttributeError
  end.

(** On the six-wheeled rover a computation keeps the motor counts and
    fails, if it fails, with a lookup error. *)
Definition steady {A} (m : M world A) : Prop :=
  forall w, six_wheeled w ->
            six_wheeled (snd (m w)) /\ lookup_error_only (fst (m w)).

Definition is_dict (v : pyval) : bool :=
  match v with PDict _ => true | _ => false end.




(** A camera the simulator serves: it is in [self.cameras] and its three
    getters return. *)
Definition camera_ready (cams : list (string * camera)) (n : string) : Prop :=
  exists c raw ht wd,
    find_camera cams n = Some c /\ getImage c = Ret raw /\
    getHeight c = Ret ht /\ getWidth c = Ret wd.



(** [frame] is what camera [c] gives at clock value [ts]. *)
Definition snapshot (c : camera) (ts : Z) (frame : pyval) : Prop :=
  exists raw ht wd,
    getImage c = Ret raw /\ getHeight c = Ret ht /\ getWidth c = Ret wd /\
    frame = PDict [ ("raw", raw); ("timestamp", PInt ts);
                    ("height", ht); ("width", wd) ]%string.

(** An object that names no camera: not a string, or a string that is no
    key of [self.cameras]. *)
Definition no_camera (cams : list (string * camera)) (cam_id : pyval) : Prop :=
  forall n, cam_id = PStr n -> find_camera cams n = None.

(** [s.lower()] on ASCII text. *)
Definition lower_ascii (c : ascii) : ascii :=
  let n := nat_of_ascii c in
  if (65 <=? n) && (n <=? 90) then ascii_of_nat (n + 32) else c.

Fixpoint lower (s : string) : string :=
  match s with
  | EmptyString => EmptyString
  | String c rest => String (lower_ascii c) (lower rest)
  end.

(** The six wheel positions: front, middle, rear; left, right. *)
Definition wheels : list string := ["FL"; "ML"; "RL"; "FR"; "MR"; "RR"]%string.

(** ** Scenarios on a six-wheel rover at rest *)

Definition rest_motor : motor := Motor float_zero float_zero.

Definition rover (inbox : list frame) : world :=
  World (replicate 6 rest_motor) (replicate 6 rest_motor)
        (RepSocket inbox false) [].

(** [2.0] *)
Definition two : pyval := PFloat (S754_finite false 4503599627370496 (-51)).

(** [{"pos_rad": {}, "speed_rads": {"DrvFL": 2.0}}] *)
Definition dems_fl : pyval :=
  PDict [("pos_rad", PDict []); ("speed_rads", PDict [("DrvFL", two)])]%string.

(** [{"speed_rads": {"DrvFL": 2.0}}] *)
Definition dems_speed_only : Dict.t :=
  [("speed_rads", PDict [("DrvFL", two)])]%string.

(** [{"pos_rad": {"StrFL": 2.0}}] *)
Definition dems_pos_only : Dict.t :=
  [("pos_rad", PDict [("StrFL", two)])]%string.

(** [{"pos_rad": {"StrFL": 2.0, "ArmBase": 2.0},
      "speed_rads": {"DrvFL": 2.0, "StrML": 2.0}}] *)
Definition dems_mixed : Dict.t :=
  [("pos_rad", PDict [("StrFL", two); ("ArmBase", two)]);
   ("speed_rads", PDict [("DrvFL", two); ("StrML", two)])]%string.

(** [{"cameras": ["LeftNav"], "format": "png"}] *)
Definition cam_req_png : pyval :=
  PDict [("cameras", PList [PStr "LeftNav"]); ("format", PStr "png")]%string.

(** One blue pixel, opaque, as the simulator hands it over. *)
Definition frame_1x1 : Dict.t :=
  [("raw", PBytes [xff; x00; x00; xff]); ("timestamp", PInt 1700000000000);
   ("height", PInt 1); ("width", PInt 1)]%string.

(** The bundle [handle_cam_req] answers [cam_req_png] with. *)
Definition bundle_png : Dict.t :=
  [("format", PStr "png"); ("LeftNav", PDict frame_1x1)]%string.

(** The same bundle for the request [{"format": {"png": {}}, ...}]. *)
Definition bundle_png_opts : Dict.t :=
  [("format", PDict [("png", PDict [])]); ("LeftNav", PDict frame_1x1)]%string.

(** The reply to [cam_req_png] under the stand-in codec. *)
Definition reply_png : pyval :=
  PDict [("LeftNav",
          PDict [("timestamp", PInt 1700000000000); ("format", PStr "png");
                 ("b64_data", PStr "AQABAAAA//8=")])]%string.

(** Two client requests arrive at once; the bundle for the first comes
    two turns later, the stop message after that. *)
Definition two_requests : list arrival :=
  [ Arrival [] [Json cam_req_png; Json cam_req_png];
    Arrival [] [];
    Arrival [PDict bundle_png] [];
    Arrival [PStr "STOP"] [] ].

(** ** Scenarios with the simulator's cameras *)

(** A camera of one blue pixel. *)
Definition cam_1x1 : camera :=
  Camera (Ret (PBytes [xff; x00; x00; xff])) (Ret (PInt 1)) (Ret (PInt 1)).

(** The cameras of [init_eqpt] when every device is [cam_1x1]. *)
Definition sim_cameras : list (string * camera) :=
  init_cameras (fun _ => cam_1x1) (fun _ => cam_1x1).

(** The main process with the given requests on its end of the pipe; the
    clock advances by one millisecond at each reading. *)
Definition host_with (pipe : list pyval) : host :=
  Host sim_cameras pipe [] (fun k => 1700000000000 + Z.of_nat k)%Z 0.

(** A codec that knows [png] only. *)
Definition png_only (name : string) (a : ndarray) : outcome (list byte) :=
  if String.eqb name "png" then plain_save name a else Raise CodecError.

(** The bundle for a request in the format [tiff]. *)
Definition bundle_tiff : Dict.t :=
  [("format", PStr "tiff"); ("LeftNav", PDict frame_1x1)]%string.

(** The bundle for a request whose format is the number [5]. *)
Definition bundle_five : Dict.t :=
  [("format", PInt 5); ("LeftNav", PDict frame_1x1)]%string.

(** A rover on whose command socket a reply is still owed. *)
Definition rover_owing (inbox : list frame) : world :=
  World (replicate 6 rest_motor) (replicate 6 rest_motor)
        (RepSocket inbox true) [].

Example handle_mech_drvfl :
  handle_mech (rover [Json dems_fl]) =
  (Ret true,
   World (replicate 6 rest_motor)
         (Motor float_inf two :: replicate 5 rest_motor)
         (RepSocket [] false)
         [SendString DemsOk; SetPosition Drv 0 float_inf; SetVelocity Drv 0 two]).
Proof. reflexivity. Qed.

Example handle_mech_idle : handle_mech (rover []) = (Ret true, rover []).
Proof. reflexivity. Qed.

(** A payload that is not JSON: nothing is sent, the drive motors are
    told to stop, the socket still owes its reply. *)
Example handle_mech_garbled :
  handle_mech (rover [Garbled]) =
  (Ret true,
   World (replicate 6 rest_motor) (replicate 6 rest_motor)
         (RepSocket [] true)
         (map (fun i => SetVelocity Drv i float_zero) (seq 0 6))).
Proof. reflexivity. Qed.

Example b64encode_Man :
  string_of_list_ascii (b64encode [x4d; x61; x6e; x4d; x61]) = "TWFuTWE="%string.
Proof. reflexivity. Qed.

Example two_requests_trace :
  trace (snd (cam_process plain_save two_requests relay_init)) =
  [ ClientRecv (Loaded cam_req_png); PipeSend cam_req_png;
    PipeRecv (PDict bundle_png); ClientSend reply_png;
    ClientRecv (Loaded cam_req_png); PipeSend cam_req_png;
    PipeRecv (PStr "STOP"); PipeClose ].
Proof. vm_compute. reflexivity. Qed.

(** ** [stop] *)

Lemma Forall_map_set_velocity (x : pyval) (ms : list motor) :
  Forall (fun m => velocity m = x) (map (set_velocity x) ms).
Proof. induction ms; simpl; constructor; auto. Qed.

Lemma map_position_set_velocity (x : pyval) (ms : list motor) :
  map position (map (set_velocity x) ms) = map position ms.
Proof. induction ms; simpl; congruence. Qed.

Lemma stop_effect (w : world) :
  Forall (fun m => velocity m = float_zero) (drv_motors (snd (stop w))) /\
  map position (drv_motors (snd (stop w))) = map position (drv_motors w) /\
  str_motors (snd (stop w)) = str_motors w /\
  calls (snd (stop w)) =
  calls w ++ map (fun i => SetVelocity Drv i float_zero)
                 (seq 0 (length (drv_motors w))).
Proof.
  simpl. repeat split.
  - apply Forall_map_set_velocity.
  - apply map_position_set_velocity.
Qed.

(** C9. [stop()] returns normally; afterwards every drive motor's velocity
    setpoint is [0.0], the drive motors are as many as before with the
    position setpoints they had, the steering motors and the command socket
    are as they were, and the only calls made are [setVelocity(0.0)], one
    for each drive motor. *)
Theorem stop_zeroes_drive_velocity_only (w : world) :
  exists w',
    stop w = (Ret tt, w') /\
    Forall (fun m => velocity m = float_zero) (drv_motors w') /\
    map position (drv_motors w') = map position (drv_motors w) /\
    length (drv_motors w') = length (drv_motors w) /\
    str_motors w' = str_motors w /\
    mech_rep w' = mech_rep w /\
    calls w' = calls w ++ map (fun i => SetVelocity Drv i float_zero)
                              (seq 0 (length (drv_motors w))).
Proof.
  eexists. split; [reflexivity|]. simpl.
  repeat split.
  - apply Forall_map_set_velocity.
  - apply map_position_set_velocity.
  - now rewrite length_map.
Qed.

(** ** The index map *)

Lemma assoc_In (m : list (string * nat)) (k : string) (i : nat) :
  assoc m k = Some i -> In (k, i) m.
Proof.
  induction m as [|[k' j] m IH]; cbn [assoc In]; [discriminate|].
  destruct (String.eqb_spec k' k) as [->|_].
  - intros [= ->]. now left.
  - intros H. right. auto.
Qed.

Lemma assoc_is_Some (m : list (string * nat)) (k : string) :
  In k (map fst m) -> is_Some (assoc m k).
Proof.
  induction m as [|[k' j] m IH]; cbn [assoc In map fst]; [tauto|].
  destruct (String.eqb_spec k' k) as [->|Hne]; [eauto|].
  intros [H|H]; [contradiction|auto].
Qed.

Lemma index_lt_6 (act_id : string) (i : nat) :
  assoc act_id_motor_group_index_map act_id = Some i -> i < 6.
Proof.
  intros H. apply assoc_In in H. unfold act_id_motor_group_index_map in H.
  simpl in H.
  repeat (destruct H as [[= <- <-]|H]; [lia|]). contradiction.
Qed.

(** Within one class the index identifies the actuator. *)
Lemma index_inj (cls a b : string) (i : nat) :
  prefix3 a = cls -> prefix3 b = cls ->
  assoc act_id_motor_group_index_map a = Some i ->
  assoc act_id_motor_group_index_map b = Some i -> a = b.
Proof.
  intros Ha Hb H1 H2. apply assoc_In in H1, H2. subst cls.
  unfold act_id_motor_group_index_map in H1, H2. simpl in H1, H2.
  repeat (destruct H1 as [H1|H1]; [inversion H1; subst; clear H1|]);
    try contradiction;
    repeat (destruct H2 as [H2|H2]; [inversion H2; subst; clear H2|]);
    try contradiction; try reflexivity; discriminate.
Qed.

(** ** [actuate_mech_dems] *)

Lemma world_eta (w : world) :
  World (str_motors w) (drv_motors w) (mech_rep w) (calls w) = w.
Proof. now destruct w. Qed.

Lemma setPosition_run (g : group) (i : nat) (x : pyval) (w : world) :
  i < length (motors_of g w) ->
  setPosition g i x w =
  (Ret tt, log (SetPosition g i x)
             (with_motors g (alter (set_position x) i (motors_of g w)) w)).
Proof. intros H. unfold setPosition. now rewrite decide_True. Qed.

Lemma setVelocity_run (g : group) (i : nat) (x : pyval) (w : world) :
  i < length (motors_of g w) ->
  setVelocity g i x w =
  (Ret tt, log (SetVelocity g i x)
             (with_motors g (alter (set_velocity x) i (motors_of g w)) w)).
Proof. intros H. unfold setVelocity. now rewrite decide_True. Qed.

Lemma actuate_pos_skip (act_id : string) (x : pyval) (rest : Dict.t) (w : world) :
  prefix3 act_id <> "Str"%string ->
  actuate_pos ((act_id, x) :: rest) w = actuate_pos rest w.
Proof.
  intros H. simpl. apply String.eqb_neq in H. now rewrite H.
Qed.

Lemma actuate_speed_skip (act_id : string) (x : pyval) (rest : Dict.t) (w : world) :
  prefix3 act_id <> "Drv"%string ->
  actuate_speed ((act_id, x) :: rest) w = actuate_speed rest w.
Proof.
  intros H. simpl. apply String.eqb_neq in H. now rewrite H.
Qed.

Ltac wsimpl :=
  cbn [log with_motors motors_of str_motors drv_motors mech_rep calls
       fst snd apply_pos pos_calls apply_speed speed_calls].

Lemma actuate_pos_run (pos : Dict.t) : forall w : world,
  ids_ok "Str" pos -> length (str_motors w) = 6 ->
  actuate_pos pos w =
  (Ret tt, World (apply_pos pos (str_motors w)) (drv_motors w) (mech_rep w)
                 (calls w ++ pos_calls pos)).
Proof.
  induction pos as [|[act_id x] rest IH]; intros w Hok Hlen.
  - simpl. rewrite app_nil_r. now rewrite world_eta.
  - inversion Hok as [|? ? Hid Hrest]; subst. cbn [fst] in Hid.
    destruct (String.eqb_spec (prefix3 act_id) "Str") as [Hp|Hp].
    + destruct (assoc_is_Some act_id_motor_group_index_map act_id (Hid Hp))
        as [i Hi].
      pose proof (index_lt_6 _ _ Hi) as Hlt.
      cbn [actuate_pos apply_pos pos_calls]. rewrite Hi.
      apply String.eqb_eq in Hp. rewrite Hp.
      unfold index_of. rewrite Hi.
      unfold mbind, M_bind, bind, lift.
      rewrite setPosition_run by (wsimpl; lia).
      rewrite IH; [|assumption|wsimpl; rewrite length_alter; assumption].
      wsimpl. now rewrite <- app_assoc.
    + rewrite actuate_pos_skip by assumption.
      rewrite IH by assumption. wsimpl.
      apply String.eqb_neq in Hp. rewrite Hp.
      now destruct (assoc act_id_motor_group_index_map act_id).
Qed.

Lemma actuate_speed_run (speed : Dict.t) : forall w : world,
  ids_ok "Drv" speed -> length (drv_motors w) = 6 ->
  actuate_speed speed w =
  (Ret tt, World (str_motors w) (apply_speed speed (drv_motors w)) (mech_rep w)
                 (calls w ++ speed_calls speed)).
Proof.
  induction speed as [|[act_id x] rest IH]; intros w Hok Hlen.
  - simpl. rewrite app_nil_r. now rewrite world_eta.
  - inversion Hok as [|? ? Hid Hrest]; subst. cbn [fst] in Hid.
    destruct (String.eqb_spec (prefix3 act_id) "Drv") as [Hp|Hp].
    + destruct (assoc_is_Some act_id_motor_group_index_map act_id (Hid Hp))
        as [i Hi].
      pose proof (index_lt_6 _ _ Hi) as Hlt.
      cbn [actuate_speed apply_speed speed_calls]. rewrite Hi.
      apply String.eqb_eq in Hp. rewrite Hp.
      unfold index_of. rewrite Hi.
      unfold mbind, M_bind, bind, lift.
      rewrite setPosition_run by (wsimpl; lia).
      rewrite setVelocity_run by (wsimpl; rewrite length_alter; lia).
      rewrite IH; [|assumption|wsimpl; rewrite !length_alter; assumption].
      wsimpl. now rewrite <- !app_assoc.
    + rewrite actuate_speed_skip by assumption.
      rewrite IH by assumption. wsimpl.
      apply String.eqb_neq in Hp. rewrite Hp.
      now destruct (assoc act_id_motor_group_index_map act_id).
Qed.

(** *** What the two loops leave behind *)

Lemma apply_pos_length (pos : Dict.t) : forall ms,
  length (apply_pos pos ms) = length ms.
Proof.
  induction pos as [|[a x] rest IH]; intros ms; wsimpl; [reflexivity|].
  destruct (assoc act_id_motor_group_index_map a); [|apply IH].
  destruct (String.eqb (prefix3 a) "Str"); rewrite IH; [apply length_alter|reflexivity].
Qed.

Lemma apply_speed_length (speed : Dict.t) : forall ms,
  length (apply_speed speed ms) = length ms.
Proof.
  induction speed as [|[a x] rest IH]; intros ms; wsimpl; [reflexivity|].
  destruct (assoc act_id_motor_group_index_map a); [|apply IH].
  destruct (String.eqb (prefix3 a) "Drv"); rewrite IH;
    [now rewrite !length_alter|reflexivity].
Qed.

(** A motor no entry of the class addresses keeps its setpoints. *)
Lemma apply_pos_untouched (pos : Dict.t) (i : nat) : forall ms,
  (forall a x, In (a, x) pos -> prefix3 a = "Str"%string ->
               assoc act_id_motor_group_index_map a <> Some i) ->
  apply_pos pos ms !! i = ms !! i.
Proof.
  induction pos as [|[a x] rest IH]; intros ms H; wsimpl; [reflexivity|].
  assert (Hrest : forall a' x', In (a', x') rest -> prefix3 a' = "Str"%string ->
                    assoc act_id_motor_group_index_map a' <> Some i)
    by (intros; eapply H; [right|]; eassumption).
  destruct (assoc act_id_motor_group_index_map a) as [j|] eqn:Hj; [|now apply IH].
  destruct (String.eqb_spec (prefix3 a) "Str") as [Hp|Hp]; [|now apply IH].
  rewrite IH by assumption.
  apply list_lookup_alter_ne. intros ->.
  now apply (H a x (or_introl eq_refl) Hp).
Qed.

Lemma apply_speed_untouched (speed : Dict.t) (i : nat) : forall ms,
  (forall a x, In (a, x) speed -> prefix3 a = "Drv"%string ->
               assoc act_id_motor_group_index_map a <> Some i) ->
  apply_speed speed ms !! i = ms !! i.
Proof.
  induction speed as [|[a x] rest IH]; intros ms H; wsimpl; [reflexivity|].
  assert (Hrest : forall a' x', In (a', x') rest -> prefix3 a' = "Drv"%string ->
                    assoc act_id_motor_group_index_map a' <> Some i)
    by (intros; eapply H; [right|]; eassumption).
  destruct (assoc act_id_motor_group_index_map a) as [j|] eqn:Hj; [|now apply IH].
  destruct (String.eqb_spec (prefix3 a) "Drv") as [Hp|Hp]; [|now apply IH].
  rewrite IH by assumption.
  assert (j <> i) by (intros ->; now apply (H a x (or_introl eq_refl) Hp)).
  now rewrite !list_lookup_alter_ne.
Qed.

(** The position loop never sets a velocity. *)
Lemma apply_pos_velocity (pos : Dict.t) : forall ms,
  map velocity (apply_pos pos ms) = map velocity ms.
Proof.
  induction pos as [|[a x] rest IH]; intros ms; wsimpl; [reflexivity|].
  destruct (assoc act_id_motor_group_index_map a) as [j|]; [|apply IH].
  destruct (String.eqb (prefix3 a) "Str"); rewrite IH; [|reflexivity].
  apply list_eq. intros k. rewrite !list_lookup_fmap.
  destruct (decide (j = k)) as [->|Hne].
  - rewrite list_lookup_alter_eq. now destruct (ms !! k).
  - now rewrite list_lookup_alter_ne.
Qed.

Lemma In_keys (d : Dict.t) (k : string) (x : pyval) :
  In (k, x) d -> In k (Dict.keys d).
Proof. intros H. apply (in_map fst) in H. exact H. Qed.

(** A steering id named in the demand ends with the position asked for. *)
Lemma apply_pos_sets (pos : Dict.t) (a : string) (x : pyval) (i : nat) :
  forall ms,
  Dict.wf pos -> In (a, x) pos -> prefix3 a = "Str"%string ->
  assoc act_id_motor_group_index_map a = Some i -> i < length ms ->
  exists m, apply_pos pos ms !! i = Some m /\ position m = x.
Proof.
  induction pos as [|[b y] rest IH]; intros ms Hwf Hin Hp Hi Hlt; [contradiction|].
  apply NoDup_cons in Hwf as [Hfresh Hwf]. wsimpl.
  destruct Hin as [[= -> ->]|Hin].
  - rewrite Hi. apply String.eqb_eq in Hp as Hp'. rewrite Hp'.
    rewrite apply_pos_untouched.
    + rewrite list_lookup_alter_eq.
      destruct (lookup_lt_is_Some_2 ms i Hlt) as [m0 ->]. simpl. eauto.
    + intros a' x' Hin' Hp'' Hi'. apply Hfresh.
      rewrite (index_inj _ _ _ _ Hp Hp'' Hi Hi').
      apply list_elem_of_In. now apply In_keys with x'.
  - destruct (assoc act_id_motor_group_index_map b) as [j|]; [|now apply IH].
    destruct (String.eqb (prefix3 b) "Str"); apply IH; auto.
    now rewrite length_alter.
Qed.

(** A drive id named in the demand ends in unbounded rotation at the
    velocity asked for. *)
Lemma apply_speed_sets (speed : Dict.t) (a : string) (x : pyval) (i : nat) :
  forall ms,
  Dict.wf speed -> In (a, x) speed -> prefix3 a = "Drv"%string ->
  assoc act_id_motor_group_index_map a = Some i -> i < length ms ->
  exists m, apply_speed speed ms !! i = Some m /\
            position m = float_inf /\ velocity m = x.
Proof.
  induction speed as [|[b y] rest IH]; intros ms Hwf Hin Hp Hi Hlt; [contradiction|].
  apply NoDup_cons in Hwf as [Hfresh Hwf]. wsimpl.
  destruct Hin as [[= -> ->]|Hin].
  - rewrite Hi. apply String.eqb_eq in Hp as Hp'. rewrite Hp'.
    rewrite apply_speed_untouched.
    + rewrite !list_lookup_alter_eq.
      destruct (lookup_lt_is_Some_2 ms i Hlt) as [m0 ->]. simpl. eauto.
    + intros a' x' Hin' Hp'' Hi'. apply Hfresh.
      rewrite (index_inj _ _ _ _ Hp Hp'' Hi Hi').
      apply list_elem_of_In. now apply In_keys with x'.
  - destruct (assoc act_id_motor_group_index_map b) as [j|]; [|now apply IH].
    destruct (String.eqb (prefix3 b) "Drv"); apply IH; auto.
    now rewrite !length_alter.
Qed.

Lemma known_ids_ok (cls : string) (d : Dict.t) :
  Forall (fun a => In a known_ids) (Dict.keys d) -> ids_ok cls d.
Proof.
  unfold ids_ok, Dict.keys. rewrite Forall_map.
  intros H. eapply Forall_impl; [exact H|]. simpl. auto.
Qed.

(** The whole of [actuate_mech_dems] on a demand that carries both maps. *)
Lemma actuate_mech_dems_run (d pos speed : Dict.t) (w : world) :
  Dict.get d "pos_rad" = Some (PDict pos) ->
  Dict.get d "speed_rads" = Some (PDict speed) ->
  ids_ok "Str" pos -> ids_ok "Drv" speed -> six_wheeled w ->
  actuate_mech_dems (PDict d) w =
  (Ret tt, World (apply_pos pos (str_motors w))
                 (apply_speed speed (drv_motors w))
                 (mech_rep w)
                 (calls w ++ pos_calls pos ++ speed_calls speed)).
Proof.
  intros Hp Hs Hokp Hoks [Hl1 Hl2].
  unfold actuate_mech_dems, getitem. rewrite Hp, Hs.
  unfold mbind, M_bind, bind, lift, items.
  rewrite actuate_pos_run by assumption.
  rewrite actuate_speed_run by assumption.
  wsimpl. now rewrite app_assoc.
Qed.

(** C3. Let a demand carry a [pos_rad] and a [speed_rads] map, each a
    dictionary whose ids are all among the seventeen known ones, and let it
    be applied to the six-wheeled rover.  Then [actuate_mech_dems] returns
    normally, and afterwards: the motor of every steering id of [pos_rad]
    has the requested position setpoint; the motor of every drive id of
    [speed_rads] has position setpoint [+inf] and the requested velocity
    setpoint; a steering motor that no steering id of [pos_rad] names and a
    drive motor that no drive id of [speed_rads] names have the setpoints
    they had, so that ids of another class are no-ops in either map; no
    steering velocity changes; the only calls made are those of the
    steering entries of [pos_rad] and of the drive entries of
    [speed_rads]. *)
Theorem actuate_known_demand (d pos speed : Dict.t) (w : world) :
  Dict.get d "pos_rad" = Some (PDict pos) ->
  Dict.get d "speed_rads" = Some (PDict speed) ->
  Dict.wf pos -> Dict.wf speed ->
  Forall (fun a => In a known_ids) (Dict.keys pos ++ Dict.keys speed) ->
  six_wheeled w ->
  exists w',
    actuate_mech_dems (PDict d) w = (Ret tt, w') /\
    (forall a x, In (a, x) pos -> prefix3 a = "Str"%string ->
       exists i m, index_of a = Ret i /\ str_motors w' !! i = Some m /\
                   position m = x) /\
    (forall a x, In (a, x) speed -> prefix3 a = "Drv"%string ->
       exists i m, index_of a = Ret i /\ drv_motors w' !! i = Some m /\
                   position m = float_inf /\ velocity m = x) /\
    (forall i,
       (forall a x, In (a, x) pos -> prefix3 a = "Str"%string ->
                    index_of a <> Ret i) ->
       str_motors w' !! i = str_motors w !! i) /\
    (forall i,
       (forall a x, In (a, x) speed -> prefix3 a = "Drv"%string ->
                    index_of a <> Ret i) ->
       drv_motors w' !! i = drv_motors w !! i) /\
    map velocity (str_motors w') = map velocity (str_motors w) /\
    six_wheeled w' /\
    mech_rep w' = mech_rep w /\
    calls w' = calls w ++ pos_calls pos ++ speed_calls speed.
Proof.
  intros Hp Hs Hwp Hws Hknown Hsix.
  apply Forall_app in Hknown as [Hkp Hks].
  pose proof (known_ids_ok "Str" pos Hkp) as Hokp.
  pose proof (known_ids_ok "Drv" speed Hks) as Hoks.
  eexists. split; [apply (actuate_mech_dems_run d pos speed w); assumption|].
  destruct Hsix as [Hl1 Hl2]. wsimpl.
  assert (Hidx : forall cls dd a x,
             Forall (fun a => In a known_ids) (Dict.keys dd) ->
             In (a, x) dd -> prefix3 a = cls ->
             exists i, assoc act_id_motor_group_index_map a = Some i /\
                       index_of a = Ret i /\ i < 6).
  { intros cls dd a x Hk Hin _.
    rewrite Forall_forall in Hk.
    destruct (assoc_is_Some act_id_motor_group_index_map a) as [i Hi].
    - apply Hk, list_elem_of_In. now apply In_keys with x.
    - exists i. unfold index_of. rewrite Hi. eauto using index_lt_6. }
  repeat apply conj.
  - intros a x Hin Hpre.
    destruct (Hidx _ _ _ _ Hkp Hin Hpre) as (i & Hi & Hio & Hlt).
    destruct (apply_pos_sets pos a x i (str_motors w)) as (m & Hm & Hx);
      auto; [lia|]. eauto.
  - intros a x Hin Hpre.
    destruct (Hidx _ _ _ _ Hks Hin Hpre) as (i & Hi & Hio & Hlt).
    destruct (apply_speed_sets speed a x i (drv_motors w)) as (m & Hm & Hx);
      auto; [lia|]. eauto.
  - intros i H. apply apply_pos_untouched. intros a x Hin Hpre Hi.
    apply (H a x Hin Hpre). unfold index_of. now rewrite Hi.
  - intros i H. apply apply_speed_untouched. intros a x Hin Hpre Hi.
    apply (H a x Hin Hpre). unfold index_of. now rewrite Hi.
  - apply apply_pos_velocity.
  - wsimpl. now rewrite apply_pos_length.
  - wsimpl. now rewrite apply_speed_length.
  - reflexivity.
  - reflexivity.
Qed.

(** *** Entries that do not belong to the loop's class, and unknown ids *)

Lemma actuate_pos_app (p q : Dict.t) : forall w : world,
  actuate_pos (p ++ q) w = (actuate_pos p ≫= fun _ => actuate_pos q) w.
Proof.
  induction p as [|[a x] p IH]; intros w; [reflexivity|].
  cbn [app actuate_pos]. unfold mbind, M_bind, bind in *.
  destruct (String.eqb (prefix3 a) "Str").
  - destruct (lift (index_of a) w) as [[i|e] w1]; [|reflexivity].
    destruct (setPosition Str i x w1) as [[[]|e] w2]; [apply IH|reflexivity].
  - apply IH.
Qed.

Lemma actuate_speed_app (p q : Dict.t) : forall w : world,
  actuate_speed (p ++ q) w = (actuate_speed p ≫= fun _ => actuate_speed q) w.
Proof.
  induction p as [|[a x] p IH]; intros w; [reflexivity|].
  cbn [app actuate_speed]. unfold mbind, M_bind, bind in *.
  destruct (String.eqb (prefix3 a) "Drv").
  - destruct (lift (index_of a) w) as [[i|e] w1]; [|reflexivity].
    destruct (setPosition Drv i float_inf w1) as [[[]|e] w2]; [|reflexivity].
    destruct (setVelocity Drv i x w2) as [[[]|e] w3]; [apply IH|reflexivity].
  - apply IH.
Qed.

Lemma actuate_pos_drop (p q : Dict.t) (a : string) (x : pyval) (w : world) :
  prefix3 a <> "Str"%string ->
  actuate_pos (p ++ (a, x) :: q) w = actuate_pos (p ++ q) w.
Proof.
  intros H. rewrite !actuate_pos_app. unfold mbind, M_bind, bind.
  destruct (actuate_pos p w) as [[[]|e] w1]; [|reflexivity].
  now apply actuate_pos_skip.
Qed.

Lemma actuate_speed_drop (p q : Dict.t) (a : string) (x : pyval) (w : world) :
  prefix3 a <> "Drv"%string ->
  actuate_speed (p ++ (a, x) :: q) w = actuate_speed (p ++ q) w.
Proof.
  intros H. rewrite !actuate_speed_app. unfold mbind, M_bind, bind.
  destruct (actuate_speed p w) as [[[]|e] w1]; [|reflexivity].
  now apply actuate_speed_skip.
Qed.

Lemma assoc_None (m : list (string * nat)) (k : string) :
  ~ In k (map fst m) -> assoc m k = None.
Proof.
  induction m as [|[k' j] m IH]; cbn [assoc In map fst]; [reflexivity|].
  intros H. destruct (String.eqb_spec k' k) as [->|_]; [tauto|].
  apply IH. tauto.
Qed.

Lemma actuate_pos_unknown (a : string) (x : pyval) (q : Dict.t) (w : world) :
  prefix3 a = "Str"%string -> ~ In a known_ids ->
  actuate_pos ((a, x) :: q) w = (Raise KeyError, w).
Proof.
  intros Hp Hk. cbn [actuate_pos]. apply String.eqb_eq in Hp. rewrite Hp.
  unfold index_of. now rewrite (assoc_None _ _ Hk).
Qed.

Lemma actuate_speed_unknown (a : string) (x : pyval) (q : Dict.t) (w : world) :
  prefix3 a = "Drv"%string -> ~ In a known_ids ->
  actuate_speed ((a, x) :: q) w = (Raise KeyError, w).
Proof.
  intros Hp Hk. cbn [actuate_speed]. apply String.eqb_eq in Hp. rewrite Hp.
  unfold index_of. now rewrite (assoc_None _ _ Hk).
Qed.

Lemma actuate_demand (pos speed : Dict.t) (w : world) :
  actuate_mech_dems (demand pos speed) w =
  (actuate_pos pos ≫= fun _ => actuate_speed speed) w.
Proof. reflexivity. Qed.

(** C5. In [pos_rad] an id whose first three characters are not [Str], and
    in [speed_rads] an id whose first three characters are not [Drv], is
    ignored: the demand behaves, in outcome, in motor state and in calls
    made, as the demand without that entry.  An id outside the known set
    that begins with [Str] in [pos_rad], or with [Drv] in [speed_rads],
    is not ignored: on the six-wheeled rover, when the entries before it
    are in order, [actuate_mech_dems] raises [KeyError] there, the entries
    before it stay applied and those after it are not. *)
Theorem unknown_id_ignored_unless_class_prefix
    (p q s t : Dict.t) (a : string) (x : pyval) (w : world) :
  (prefix3 a <> "Str"%string ->
   actuate_mech_dems (demand (p ++ (a, x) :: q) s) w =
   actuate_mech_dems (demand (p ++ q) s) w) /\
  (prefix3 a <> "Drv"%string ->
   actuate_mech_dems (demand p (s ++ (a, x) :: t)) w =
   actuate_mech_dems (demand p (s ++ t)) w) /\
  (~ In a known_ids -> prefix3 a = "Str"%string ->
   ids_ok "Str" p -> six_wheeled w ->
   actuate_mech_dems (demand (p ++ (a, x) :: q) s) w =
   (Raise KeyError,
    World (apply_pos p (str_motors w)) (drv_motors w) (mech_rep w)
          (calls w ++ pos_calls p))) /\
  (~ In a known_ids -> prefix3 a = "Drv"%string ->
   ids_ok "Str" p -> ids_ok "Drv" s -> six_wheeled w ->
   actuate_mech_dems (demand p (s ++ (a, x) :: t)) w =
   (Raise KeyError,
    World (apply_pos p (str_motors w)) (apply_speed s (drv_motors w))
          (mech_rep w) (calls w ++ pos_calls p ++ speed_calls s))).
Proof.
  rewrite !actuate_demand. repeat apply conj.
  - intros H. unfold mbind, M_bind, bind.
    now rewrite actuate_pos_drop.
  - intros H. unfold mbind, M_bind, bind.
    destruct (actuate_pos p w) as [[[]|e] w1]; [|reflexivity].
    now apply actuate_speed_drop.
  - intros Hk Hp Hok [Hl1 Hl2]. unfold mbind at 1. unfold M_bind, bind.
    rewrite actuate_pos_app. unfold mbind, M_bind, bind.
    rewrite actuate_pos_run by assumption.
    now rewrite actuate_pos_unknown.
  - intros Hk Hp Hokp Hoks [Hl1 Hl2]. unfold mbind at 1. unfold M_bind, bind.
    rewrite actuate_pos_run by assumption.
    rewrite actuate_speed_app. unfold mbind, M_bind, bind.
    rewrite actuate_speed_run by assumption.
    rewrite actuate_speed_unknown by assumption.
    wsimpl. now rewrite app_assoc.
Qed.

(** ** [handle_mech] *)

Lemma recv_json_loaded (s : rep_socket) (v : pyval) :
  fst (recv_json s) = Loaded v -> awaiting_reply (snd (recv_json s)) = true.
Proof.
  unfold recv_json. destruct (awaiting_reply s); [discriminate|].
  destruct (inbox s) as [|[| |v'] q]; simpl; congruence.
Qed.

Lemma handle_mech_loaded (w : world) (v : pyval) :
  fst (recv_json (mech_rep w)) = Loaded v -> v <> PNone ->
  handle_mech w =
  (actuate_mech_dems v ≫= fun _ => ret true) (acknowledged w).
Proof.
  intros Hr Hv. pose proof (recv_json_loaded _ _ Hr) as Haw.
  unfold handle_mech, mech_recv, acknowledged.
  unfold mbind at 1. unfold M_bind, bind at 1.
  destruct (recv_json (mech_rep w)) as [r s]. simpl in Hr, Haw. subst r.
  assert (Hsend : send_string DemsOk
                    (World (str_motors w) (drv_motors w) s (calls w)) =
                  (Ret tt, World (str_motors w) (drv_motors w)
                             (RepSocket (inbox s) false)
                             (calls w ++ [SendString DemsOk]))).
  { unfold send_string. simpl. now rewrite Haw. }
  destruct v; try contradiction;
    unfold mbind, M_bind, bind; rewrite Hsend; reflexivity.
Qed.

Lemma handle_mech_failed (w : world) :
  fst (recv_json (mech_rep w)) = ZmqErr \/
  fst (recv_json (mech_rep w)) = OtherExc ->
  handle_mech w = (Ret true, snd (stop (received w))).
Proof.
  intros Hr. unfold handle_mech, mech_recv, received.
  unfold mbind, M_bind, bind.
  destruct (recv_json (mech_rep w)) as [r s]. simpl in Hr.
  destruct Hr as [->| ->]; reflexivity.
Qed.

(** Whatever it received, a [handle_mech] that returns returns [True]. *)
Lemma handle_mech_returns_true (w w' : world) (b : bool) :
  handle_mech w = (Ret b, w') -> b = true.
Proof.
  unfold handle_mech, mbind, M_bind, bind.
  destruct (mech_recv w) as [[r|e] w1]; [|discriminate].
  destruct r as [| | |v]; cbv beta iota zeta.
  - intros [= <- _]. reflexivity.
  - intros [= <- _]. reflexivity.
  - intros [= <- _]. reflexivity.
  - destruct v;
      lazymatch goal with
      | |- (let (_, _) := ?m in _) = _ -> _ =>
          destruct m as [[[]|e] w2]; [|discriminate]
      end;
      intros [= <- _]; reflexivity.
Qed.

(** C1. When the receive on the command socket fails with a transport
    error, or the payload fails to decode, [handle_mech] sends no reply,
    sets the velocity setpoint of every drive motor to [0.0] and touches no
    other setpoint, and returns [True], the value it returns on every path:
    the rover is stopped, and the handler gives no stop indication to the
    loop that called it. *)
Theorem handle_mech_error_stops_rover (w : world) :
  fst (recv_json (mech_rep w)) = ZmqErr \/
  fst (recv_json (mech_rep w)) = OtherExc ->
  exists w',
    handle_mech w = (Ret true, w') /\
    Forall (fun m => velocity m = float_zero) (drv_motors w') /\
    map position (drv_motors w') = map position (drv_motors w) /\
    str_motors w' = str_motors w /\
    exists evs, calls w' = calls w ++ evs /\
                Forall (fun e => is_send e = false) evs.
Proof.
  intros Hr. eexists. split; [now apply handle_mech_failed|].
  destruct (stop_effect (received w))
    as (Hv & Hp & Hs & Hc).
  repeat apply conj; try assumption.
  eexists. split; [exact Hc|].
  apply Forall_map, Forall_forall. reflexivity.
Qed.

(** *** Actuation sends nothing *)

Lemma quiet_refl (w : world) : quiet w w.
Proof. exists []. split; [now rewrite app_nil_r|constructor]. Qed.

Lemma quiet_trans (w1 w2 w3 : world) : quiet w1 w2 -> quiet w2 w3 -> quiet w1 w3.
Proof.
  intros (e1 & H1 & F1) (e2 & H2 & F2). exists (e1 ++ e2). split.
  - now rewrite H2, H1, app_assoc.
  - now apply Forall_app.
Qed.

Lemma bind_quiet {A B} (m : M world A) (k : A -> M world B) :
  (forall w, quiet w (snd (m w))) ->
  (forall a w, quiet w (snd (k a w))) ->
  forall w, quiet w (snd ((m ≫= k) w)).
Proof.
  intros Hm Hk w. unfold mbind, M_bind, bind.
  specialize (Hm w). destruct (m w) as [[a|e] w1]; simpl in *; [|assumption].
  eapply quiet_trans; [eassumption|apply Hk].
Qed.

Lemma lift_quiet {A} (o : outcome A) (w : world) : quiet w (snd (lift o w)).
Proof. apply quiet_refl. Qed.

Lemma setPosition_quiet (g : group) (i : nat) (x : pyval) (w : world) :
  quiet w (snd (setPosition g i x w)).
Proof.
  unfold setPosition. case_decide; [|apply quiet_refl].
  exists [SetPosition g i x]. destruct g; simpl; auto.
Qed.

Lemma setVelocity_quiet (g : group) (i : nat) (x : pyval) (w : world) :
  quiet w (snd (setVelocity g i x w)).
Proof.
  unfold setVelocity. case_decide; [|apply quiet_refl].
  exists [SetVelocity g i x]. destruct g; simpl; auto.
Qed.

Lemma actuate_pos_quiet (pos : Dict.t) (w : world) :
  quiet w (snd (actuate_pos pos w)).
Proof.
  revert w. induction pos as [|[a x] rest IH]; intros w; [apply quiet_refl|].
  cbn [actuate_pos]. apply bind_quiet; [|auto]. clear w. intros w.
  destruct (String.eqb (prefix3 a) "Str"); [|apply quiet_refl].
  apply bind_quiet; auto using lift_quiet, setPosition_quiet.
Qed.

Lemma actuate_speed_quiet (speed : Dict.t) (w : world) :
  quiet w (snd (actuate_speed speed w)).
Proof.
  revert w. induction speed as [|[a x] rest IH]; intros w; [apply quiet_refl|].
  cbn [actuate_speed]. apply bind_quiet; [|auto]. clear w. intros w.
  destruct (String.eqb (prefix3 a) "Drv"); [|apply quiet_refl].
  apply bind_quiet; [apply lift_quiet|]. intros i w'.
  apply bind_quiet; auto using setPosition_quiet, setVelocity_quiet.
Qed.

Lemma actuate_mech_dems_quiet (dems : pyval) (w : world) :
  quiet w (snd (actuate_mech_dems dems w)).
Proof.
  unfold actuate_mech_dems.
  repeat (apply bind_quiet;
          [auto using lift_quiet, actuate_pos_quiet|intros ? ?]).
  apply actuate_speed_quiet.
Qed.

(** C2. For every frame received on the command socket that decodes to
    anything but JSON [null], the first call [handle_mech] makes is the send
    of the acknowledgement ["DemsOk"], and every call after it is an
    actuation: nothing is actuated before the acknowledgement, and nothing
    else is sent. *)
Theorem handle_mech_ack_before_actuation (w : world) (v : pyval) :
  fst (recv_json (mech_rep w)) = Loaded v -> v <> PNone ->
  exists evs,
    calls (snd (handle_mech w)) = calls w ++ SendString DemsOk :: evs /\
    Forall (fun e => is_send e = false) evs.
Proof.
  intros Hr Hv. rewrite (handle_mech_loaded w v Hr Hv).
  destruct (bind_quiet (actuate_mech_dems v) (fun _ => ret true)
              (actuate_mech_dems_quiet v) (fun _ => quiet_refl)
              (acknowledged w))
    as (evs & Hc & Hq).
  exists evs. split; [|exact Hq].
  rewrite Hc. simpl. now rewrite <- app_assoc.
Qed.

(** C6. Let the command socket deliver a JSON object to the six-wheeled
    rover.  When the object has both keys [pos_rad] and [speed_rads], each
    with a mapping (empty or not) whose steering, respectively drive, ids
    are in the index map, [handle_mech] returns normally after sending the
    acknowledgement and then applying the demands.  When [pos_rad] is
    absent, the acknowledgement is sent and [KeyError] is raised before any
    motor is touched.  When only [speed_rads] is absent, the
    acknowledgement is sent, the position demands are applied and
    [KeyError] is raised. *)
Theorem handle_mech_demand_keys (w : world) (d : Dict.t) :
  fst (recv_json (mech_rep w)) = Loaded (PDict d) ->
  six_wheeled w ->
  (forall pos speed,
     Dict.get d "pos_rad" = Some (PDict pos) ->
     Dict.get d "speed_rads" = Some (PDict speed) ->
     ids_ok "Str" pos -> ids_ok "Drv" speed ->
     exists w',
       handle_mech w = (Ret true, w') /\
       str_motors w' = apply_pos pos (str_motors w) /\
       drv_motors w' = apply_speed speed (drv_motors w) /\
       calls w' =
       calls w ++ SendString DemsOk :: pos_calls pos ++ speed_calls speed) /\
  (Dict.get d "pos_rad" = None ->
   exists w',
     handle_mech w = (Raise KeyError, w') /\
     str_motors w' = str_motors w /\
     drv_motors w' = drv_motors w /\
     calls w' = calls w ++ [SendString DemsOk]) /\
  (forall pos,
     Dict.get d "pos_rad" = Some (PDict pos) ->
     Dict.get d "speed_rads" = None ->
     ids_ok "Str" pos ->
     exists w',
       handle_mech w = (Raise KeyError, w') /\
       str_motors w' = apply_pos pos (str_motors w) /\
       drv_motors w' = drv_motors w /\
       calls w' = calls w ++ SendString DemsOk :: pos_calls pos).
Proof.
  intros Hr Hsix.
  rewrite (handle_mech_loaded w (PDict d) Hr) by discriminate.
  assert (Hsix' : six_wheeled (acknowledged w)) by exact Hsix.
  repeat apply conj.
  - intros pos speed Hp Hs Hokp Hoks. unfold mbind, M_bind, bind.
    rewrite (actuate_mech_dems_run d pos speed) by assumption.
    eexists. split; [reflexivity|]. simpl.
    now rewrite <- app_assoc.
  - intros Hp. unfold mbind, M_bind, bind.
    unfold actuate_mech_dems, getitem. rewrite Hp.
    eexists. split; [reflexivity|]. now simpl.
  - intros pos Hp Hs Hok. destruct Hsix' as [Hl1 Hl2].
    unfold mbind at 1. unfold M_bind, bind.
    unfold actuate_mech_dems, getitem. rewrite Hp, Hs.
    unfold mbind, M_bind, bind, lift, items.
    rewrite actuate_pos_run by assumption.
    eexists. split; [reflexivity|]. simpl.
    now rewrite <- app_assoc.
Qed.

(** ** The relay loop *)

Lemma check_app (s : bool * bool) (t1 t2 : list relay_event) :
  check s (t1 ++ t2) = s' ← check s t1; check s' t2.
Proof.
  revert s. induction t1 as [|e t1 IH]; intros s; simpl; [reflexivity|].
  destruct (track s e); simpl; auto.
Qed.

Section Relay.

Variable image_save : string -> ndarray -> outcome (list byte).

Lemma deliver_inv (a : arrival) (r : relay) :
  relay_inv r -> relay_inv (snd (deliver a r)).
Proof. exact id. Qed.

Lemma cam_iter_inv (r : relay) :
  relay_inv r -> relay_inv (snd (cam_iter image_save r)).
Proof.
  unfold relay_inv. destruct r as [[inb aw] pipe h tr]. simpl.
  intros HJ.
  unfold cam_iter, pipe_poll_recv, handle_cam_send, cam_send, cam_recv,
    emit, set_handling_req, get_handling_req, recv_json,
    mbind, M_bind, bind, lift, ret, items.
  cbn [cam_pipe cam_rep handling_req trace inbox awaiting_reply fst snd].
  repeat (match goal with
          | |- context [match ?x with _ => _ end] =>
              lazymatch x with
              | context [match _ with _ => _ end] => fail
              | _ => destruct x eqn:?
              end
          end;
          cbn [cam_pipe cam_rep handling_req trace inbox awaiting_reply
               fst snd is_stop]);
    rewrite ?check_app, ?HJ; try reflexivity; try discriminate.
Qed.

Lemma cam_loop_inv (env : list arrival) : forall r : relay,
  relay_inv r -> relay_inv (snd (cam_loop image_save env r)).
Proof.
  induction env as [|a env IH]; intros r HJ; [exact HJ|].
  cbn [cam_loop]. unfold mbind, M_bind, bind.
  change (deliver a r) with (Ret tt, snd (deliver a r)).
  cbv beta iota.
  pose proof (cam_iter_inv _ (deliver_inv a r HJ)) as HJ'.
  destruct (cam_iter image_save (snd (deliver a r))) as [[[]|e] r'];
    simpl in HJ'; auto.
Qed.

Lemma cam_process_inv (env : list arrival) (r : relay) :
  relay_inv r -> relay_inv (snd (cam_process image_save env r)).
Proof.
  intros HJ. unfold cam_process, mbind, M_bind, bind.
  pose proof (cam_loop_inv env r HJ) as HJ'.
  destruct (cam_loop image_save env r) as [[[]|e] r']; simpl in *; auto.
  unfold relay_inv in *. simpl. rewrite check_app, HJ'. reflexivity.
Qed.

End Relay.

Lemma check_split (s s3 : bool * bool) (pre post : list relay_event)
    (e : relay_event) :
  check s (pre ++ e :: post) = Some s3 ->
  exists s1 s2, check s pre = Some s1 /\ track s1 e = Some s2 /\
                check s2 post = Some s3.
Proof.
  rewrite check_app. destruct (check s pre) as [s1|]; [|discriminate].
  simpl. destruct (track s1 e) as [s2|] eqn:Ht; [|discriminate].
  simpl. eauto.
Qed.

Lemma check_outstanding (tr : list relay_event) : forall s s',
  check s tr = Some s' ->
  fst s' = fold_left (fun b e => match e with
                                 | PipeSend _ => true
                                 | ClientSend _ => false
                                 | _ => b
                                 end) tr (fst s).
Proof.
  induction tr as [|e tr IH]; intros [o w] s'; cbn [check fold_left].
  - intros H. now inversion H.
  - destruct (track (o, w) e) as [s1|] eqn:Ht; simpl; [|discriminate].
    intros H. rewrite (IH _ _ H). f_equal.
    destruct e as [m|[]|q|res|]; simpl in Ht;
      destruct o, w; try discriminate; now inversion Ht.
Qed.

Lemma check_owed_reply (mid : list relay_event) : forall o o',
  check (o, true) mid = Some (o', false) ->
  exists res, In (ClientSend res) mid.
Proof.
  induction mid as [|e mid IH]; intros o o'; cbn [check]; [discriminate|].
  destruct e as [m|x|q|res|]; simpl.
  - intros H. destruct (IH _ _ H) as [res ?]. eauto.
  - destruct o; [discriminate|].
    destruct x; simpl; try discriminate;
      intros H; destruct (IH _ _ H) as [res ?]; eauto.
  - destruct o; [discriminate|]. simpl.
    intros H. destruct (IH _ _ H) as [res ?]. eauto.
  - eauto.
  - intros H. destruct (IH _ _ H) as [res ?]. eauto.
Qed.

(** C4. Run the camera relay process from its start over any schedule of
    arrivals, and read the events it has produced.  Wherever it attempts a
    receive on the client socket, no forwarded request is outstanding;
    wherever it forwards a request, none is outstanding, so at most one
    request is in flight; between two requests received from the client a
    reply has been sent; and the flag [handling_req] says at the end
    whether a request is outstanding. *)
Theorem cam_process_one_request_in_flight
    (image_save : string -> ndarray -> outcome (list byte))
    (env : list arrival) :
  let r := snd (cam_process image_save env relay_init) in
  (forall pre x post,
     trace r = pre ++ ClientRecv x :: post -> outstanding pre = false) /\
  (forall pre q post,
     trace r = pre ++ PipeSend q :: post -> outstanding pre = false) /\
  (forall pre v mid v' post,
     trace r = pre ++ ClientRecv (Loaded v) :: mid
                   ++ ClientRecv (Loaded v') :: post ->
     exists res, In (ClientSend res) mid) /\
  handling_req r = outstanding (trace r).
Proof.
  intros r.
  assert (HJ : relay_inv r) by (apply cam_process_inv; reflexivity).
  unfold relay_inv in HJ. repeat apply conj.
  - intros pre x post Htr. rewrite Htr in HJ.
    apply check_split in HJ as ([o w] & s2 & Hpre & Ht & _).
    apply check_outstanding in Hpre. simpl in Hpre.
    unfold outstanding. rewrite <- Hpre.
    simpl in Ht. now destruct o.
  - intros pre q post Htr. rewrite Htr in HJ.
    apply check_split in HJ as ([o w] & s2 & Hpre & Ht & _).
    apply check_outstanding in Hpre. simpl in Hpre.
    unfold outstanding. rewrite <- Hpre.
    simpl in Ht. now destruct o.
  - intros pre v mid v' post Htr. rewrite Htr in HJ.
    apply check_split in HJ as ([o w] & s2 & _ & Ht & Hrest).
    apply check_split in Hrest as ([o3 w3] & s4 & Hmid & Ht' & _).
    simpl in Ht, Ht'. destruct o, w, o3, w3; try discriminate.
    injection Ht as <-. now apply check_owed_reply in Hmid.
  - apply check_outstanding in HJ. exact HJ.
Qed.

(** ** Base64 *)

Ltac n_divmod := zify; Z.to_euclidean_division_equations; lia.

Lemma list_ind3 {A} (P : list A -> Prop) :
  P [] -> (forall a, P [a]) -> (forall a b, P [a; b]) ->
  (forall a b c rest, P rest -> P (a :: b :: c :: rest)) ->
  forall l, P l.
Proof.
  intros H0 H1 H2 H3.
  assert (H : forall l, P l /\ (forall a, P (a :: l)) /\
                        (forall a b, P (a :: b :: l))).
  { induction l as [|x l (IH0 & IH1 & IH2)]; [now auto|].
    repeat split; auto. }
  intros l. apply H.
Qed.

Lemma b64_index_char (n : N) :
  (n < 64)%N ->
  b64_index (b64_char n) = Some n /\ Ascii.eqb (b64_char n) b64_pad = false.
Proof.
  intros Hn.
  assert (Hall : forallb
            (fun i => bool_decide (b64_index (b64_char (N.of_nat i))
                                   = Some (N.of_nat i))
                      && negb (Ascii.eqb (b64_char (N.of_nat i)) b64_pad))
            (seq 0 64) = true) by (vm_compute; reflexivity).
  rewrite forallb_forall in Hall.
  specialize (Hall (N.to_nat n)). rewrite N2Nat.id in Hall.
  destruct (andb_prop _ _ (Hall ltac:(apply in_seq; lia))) as [H1 H2].
  split; [now apply bool_decide_eq_true in H1|now apply negb_true_iff].
Qed.

Lemma bytes_of_sextets (a b c : byte) :
  let n := (Byte.to_N a * 65536 + Byte.to_N b * 256 + Byte.to_N c)%N in
  bytes_of_group ((n / 262144) mod 64) ((n / 4096) mod 64)
                 ((n / 64) mod 64) (n mod 64) = Some [a; b; c].
Proof.
  intros n. unfold bytes_of_group.
  pose proof (Byte.to_N_bounded a) as Ha.
  pose proof (Byte.to_N_bounded b) as Hb.
  pose proof (Byte.to_N_bounded c) as Hc.
  replace ((n / 262144) mod 64 * 262144 + (n / 4096) mod 64 * 4096
           + (n / 64) mod 64 * 64 + n mod 64)%N with n
    by (subst n; n_divmod).
  replace (n / 65536)%N with (Byte.to_N a) by (subst n; n_divmod).
  replace ((n / 256) mod 256)%N with (Byte.to_N b) by (subst n; n_divmod).
  replace (n mod 256)%N with (Byte.to_N c) by (subst n; n_divmod).
  now rewrite !Byte.of_to_N.
Qed.

Lemma sextets3_lt (a b c : byte) :
  Forall (fun s => (s < 64)%N) (sextets3 a b c).
Proof.
  unfold sextets3. repeat constructor; apply N.mod_lt; discriminate.
Qed.

(** [b64decode] undoes [b64encode]. *)
Lemma b64decode_encode (bs : list byte) : b64decode (b64encode bs) = Some bs.
Proof.
  induction bs as [|a|a b|a b c rest IH] using list_ind3.
  - reflexivity.
  - pose proof (sextets3_lt a x00 x00) as Hlt.
    pose proof (bytes_of_sextets a x00 x00) as Hb.
    pose proof (Byte.to_N_bounded a) as Ha.
    cbn [b64encode]. unfold sextets3 in *. cbv zeta in Hb |- *.
    cbn [map take app b64decode].
    set (n := (Byte.to_N a * 65536 + Byte.to_N x00 * 256 + Byte.to_N x00)%N) in *.
    inversion Hlt as [|? ? H0 Hlt1]; subst.
    inversion Hlt1 as [|? ? H1 _]; subst.
    destruct (b64_index_char _ H0) as [-> _].
    destruct (b64_index_char _ H1) as [-> _].
    replace ((n / 64) mod 64)%N with 0%N in Hb
      by (subst n; change (Byte.to_N x00) with 0%N; n_divmod).
    replace (n mod 64)%N with 0%N in Hb
      by (subst n; change (Byte.to_N x00) with 0%N; n_divmod).
    cbn. rewrite Hb. reflexivity.
  - pose proof (sextets3_lt a b x00) as Hlt.
    pose proof (bytes_of_sextets a b x00) as Hb.
    pose proof (Byte.to_N_bounded a) as Ha.
    pose proof (Byte.to_N_bounded b) as Hbb.
    cbn [b64encode]. unfold sextets3 in *. cbv zeta in Hb |- *.
    cbn [map take app b64decode].
    set (n := (Byte.to_N a * 65536 + Byte.to_N b * 256 + Byte.to_N x00)%N) in *.
    inversion Hlt as [|? ? H0 Hlt1]; subst.
    inversion Hlt1 as [|? ? H1 Hlt2]; subst.
    inversion Hlt2 as [|? ? H2 _]; subst.
    destruct (b64_index_char _ H0) as [-> _].
    destruct (b64_index_char _ H1) as [-> _].
    destruct (b64_index_char _ H2) as [-> Hpad].
    replace (n mod 64)%N with 0%N in Hb
      by (subst n; change (Byte.to_N x00) with 0%N; n_divmod).
    cbn. rewrite Hpad. cbn. rewrite Hb. reflexivity.
  - pose proof (sextets3_lt a b c) as Hlt.
    pose proof (bytes_of_sextets a b c) as Hb.
    cbn [b64encode]. unfold sextets3 in *. cbv zeta in Hb |- *.
    cbn [map app b64decode].
    set (n := (Byte.to_N a * 65536 + Byte.to_N b * 256 + Byte.to_N c)%N) in *.
    inversion Hlt as [|? ? H0 Hlt1]; subst.
    inversion Hlt1 as [|? ? H1 Hlt2]; subst.
    inversion Hlt2 as [|? ? H2 Hlt3]; subst.
    inversion Hlt3 as [|? ? H3 _]; subst.
    destruct (b64_index_char _ H0) as [-> _].
    destruct (b64_index_char _ H1) as [-> _].
    destruct (b64_index_char _ H2) as [-> _].
    destruct (b64_index_char _ H3) as [-> Hpad].
    rewrite Hpad. cbn. rewrite Hb. cbn. rewrite IH. reflexivity.
Qed.

(** ** The encoder *)

Lemma reindex_channels_length (l : list byte) (k : nat) :
  length l = 4 * k -> length (reindex_channels l) = length l.
Proof.
  revert l. induction k as [|k IH]; intros l Hl.
  - destruct l; [reflexivity|discriminate].
  - destruct l as [|c0 [|c1 [|c2 [|c3 rest]]]]; try (simpl in Hl; lia).
    cbn [reindex_channels channel_order map nth app length] in *.
    rewrite IH; [reflexivity|lia].
Qed.

(** Pixel [p] of the reindexed buffer is pixel [p] of the raw one with the
    first and third channel exchanged. *)
Lemma reindex_channels_pixel (p : nat) : forall l : list byte,
  4 * p + 3 < length l ->
  reindex_channels l !! (4 * p) = l !! (4 * p + 2) /\
  reindex_channels l !! (4 * p + 1) = l !! (4 * p + 1) /\
  reindex_channels l !! (4 * p + 2) = l !! (4 * p) /\
  reindex_channels l !! (4 * p + 3) = l !! (4 * p + 3).
Proof.
  induction p as [|p IH]; intros l Hl;
    destruct l as [|c0 [|c1 [|c2 [|c3 rest]]]]; try (simpl in Hl; lia).
  - repeat split.
  - cbn [reindex_channels channel_order map nth app].
    replace (4 * S p) with (4 + 4 * p) by lia.
    cbn [Nat.add lookup list_lookup].
    apply IH. simpl in Hl. lia.
Qed.

Lemma reshape_exact (buf : list byte) (h w : Z) :
  (0 < h)%Z -> (0 < w)%Z -> Z.of_nat (length buf) = (h * w * 4)%Z ->
  reshape buf h w = Ret (NdArray h w buf).
Proof.
  intros Hh Hw Hn. unfold reshape.
  rewrite (proj2 (Z.ltb_ge h 0)) by lia.
  rewrite (proj2 (Z.ltb_ge w 0)) by lia. cbn [andb].
  rewrite (proj2 (Z.eqb_eq _ _) (eq_sym Hn)).
  rewrite (proj2 (Z.ltb_lt 0 h) Hh), (proj2 (Z.ltb_lt 0 w) Hw).
  reflexivity.
Qed.

(** A positive dimension of a shape that has the size of the buffer is in
    the index range. *)
Lemma as_index_exact (buf : list byte) (h w : Z) :
  (0 < h)%Z -> (0 < w)%Z -> Z.of_nat (length buf) = (h * w * 4)%Z ->
  as_index (Z.of_nat (length buf)) (PInt h) = Ret h /\
  as_index (Z.of_nat (length buf)) (PInt w) = Ret w.
Proof.
  intros Hh Hw Hn. unfold as_index, intp_max.
  assert (h <= Z.of_nat (length buf))%Z by nia.
  assert (w <= Z.of_nat (length buf))%Z by nia.
  split.
  - rewrite (proj2 (Z.leb_le _ h)) by lia.
    rewrite (proj2 (Z.leb_le h _)) by lia. reflexivity.
  - rewrite (proj2 (Z.leb_le _ w)) by lia.
    rewrite (proj2 (Z.leb_le w _)) by lia. reflexivity.
Qed.

(** [encode_image] on a well-formed frame: the codec's output for the
    reindexed array under the name the format specifier gives. *)
Lemma encode_image_frame
    (image_save : string -> ndarray -> outcome (list byte))
    (cam_data data : Dict.t) (fmt : pyval) (raw : list byte) (h w : Z) :
  Dict.get cam_data "format" = Some fmt ->
  Dict.get data "raw" = Some (PBytes raw) ->
  Dict.get data "height" = Some (PInt h) ->
  Dict.get data "width" = Some (PInt w) ->
  (0 < h)%Z -> (0 < w)%Z -> Z.of_nat (length raw) = (h * w * 4)%Z ->
  encode_image image_save (PDict cam_data) (PDict data) =
  (name ← format_name fmt;
   image_save name (NdArray h w (reindex_channels raw))).
Proof.
  intros Hf Hr Hh Hw H0h H0w Hlen.
  destruct (as_index_exact raw h w H0h H0w Hlen) as [Hih Hiw].
  unfold encode_image, getitem. rewrite Hr, Hh, Hw, Hf.
  cbn [mbind outcome_bind frombuffer]. rewrite Hih, Hiw.
  cbn [mbind outcome_bind]. rewrite reshape_exact by assumption.
  reflexivity.
Qed.

Lemma encode_image_run
    (image_save : string -> ndarray -> outcome (list byte))
    (cam_data data : Dict.t) (fmt : pyval) (name : string)
    (raw : list byte) (h w : Z) :
  Dict.get cam_data "format" = Some fmt ->
  format_name fmt = Ret name ->
  Dict.get data "raw" = Some (PBytes raw) ->
  Dict.get data "height" = Some (PInt h) ->
  Dict.get data "width" = Some (PInt w) ->
  (0 < h)%Z -> (0 < w)%Z -> Z.of_nat (length raw) = (h * w * 4)%Z ->
  encode_image image_save (PDict cam_data) (PDict data) =
  image_save name (NdArray h w (reindex_channels raw)).
Proof.
  intros Hf Hn Hr Hh Hw H0h H0w Hlen.
  rewrite (encode_image_frame image_save cam_data data fmt raw h w)
    by assumption.
  now rewrite Hn.
Qed.

(** C7. Let the codec be lossless for the format name [png]: on every
    array of positive height and width it returns bytes that the image
    decoder turns back into that array.  Then for a frame of positive
    height [h] and width [w] whose raw buffer has [h*w*4] bytes, requested
    in format ["png"], the encoder returns an entry whose [b64_data]
    base64-decodes to bytes that image-decode to an [h] by [w] array with as
    many bytes as the raw buffer, each pixel being the raw pixel with the
    first and the third channel exchanged (B,G,R,A read as R,G,B,A) and the
    second and fourth kept. *)
Theorem png_round_trip
    (image_save : string -> ndarray -> outcome (list byte))
    (image_open : list byte -> option ndarray)
    (cam_data data : Dict.t) (raw : list byte) (h w : Z) (ts : pyval) :
  (forall a, (0 < nd_height a)%Z -> (0 < nd_width a)%Z ->
             exists bs, image_save "png" a = Ret bs /\ image_open bs = Some a) ->
  Dict.get cam_data "format" = Some (PStr "png") ->
  Dict.get data "raw" = Some (PBytes raw) ->
  Dict.get data "height" = Some (PInt h) ->
  Dict.get data "width" = Some (PInt w) ->
  Dict.get data "timestamp" = Some ts ->
  (0 < h)%Z -> (0 < w)%Z -> Z.of_nat (length raw) = (h * w * 4)%Z ->
  exists bs rgba b64,
    encode_camera image_save (PDict cam_data) (PDict data) =
    Ret (PDict [("timestamp", ts); ("format", PStr "png");
                ("b64_data", PStr b64)]%string) /\
    b64decode (list_ascii_of_string b64) = Some bs /\
    image_open bs = Some (NdArray h w rgba) /\
    length rgba = length raw /\
    forall p, 4 * p + 3 < length raw ->
      rgba !! (4 * p) = raw !! (4 * p + 2) /\
      rgba !! (4 * p + 1) = raw !! (4 * p + 1) /\
      rgba !! (4 * p + 2) = raw !! (4 * p) /\
      rgba !! (4 * p + 3) = raw !! (4 * p + 3).
Proof.
  intros Hpng Hf Hr Hh Hw Ht H0h H0w Hlen.
  destruct (Hpng (NdArray h w (reindex_channels raw)) H0h H0w)
    as (bs & Hsave & Hopen).
  exists bs, (reindex_channels raw), (string_of_list_ascii (b64encode bs)).
  repeat apply conj.
  - unfold encode_camera.
    rewrite (encode_image_run image_save cam_data data (PStr "png") "png" raw h w)
      by (auto; lia).
    rewrite Hsave. unfold getitem. rewrite Ht, Hf. reflexivity.
  - rewrite list_ascii_of_string_of_list_ascii. apply b64decode_encode.
  - exact Hopen.
  - apply reindex_channels_length with (Z.to_nat (h * w)). lia.
  - intros p Hp. now apply reindex_channels_pixel.
Qed.

(** *** The format specifier *)

Lemma map_values_set (f : pyval -> pyval) (d : Dict.t) (k : string) (v : pyval) :
  map_values f (Dict.set d k v) = Dict.set (map_values f d) k (f v).
Proof.
  induction d as [|[k' v'] d IH]; simpl; [reflexivity|].
  destruct (String.eqb k' k); simpl; [reflexivity|]. now rewrite IH.
Qed.

Lemma In_set (d : Dict.t) (k k' : string) (v v' : pyval) :
  In (k', v') (Dict.set d k v) -> (k' = k /\ v' = v) \/ In (k', v') d.
Proof.
  induction d as [|[k0 v0] d IH]; simpl.
  - intros [[= <- <-]|[]]. now left.
  - destruct (String.eqb_spec k0 k) as [->|Hne]; simpl.
    + intros [[= <- <-]|H]; [now left|now right; right].
    + intros [H|H]; [now right; left|].
      destruct (IH H) as [?|?]; [now left|now right; right].
Qed.

Lemma keys_set_fresh (d : Dict.t) (k : string) (v : pyval) :
  ~ In k (Dict.keys d) -> Dict.keys (Dict.set d k v) = Dict.keys d ++ [k].
Proof.
  induction d as [|[k' v'] d IH]; simpl; [reflexivity|].
  intros H. destruct (String.eqb_spec k' k) as [->|_]; [tauto|].
  simpl. rewrite IH; [reflexivity|tauto].
Qed.

Lemma get_set_eq (d : Dict.t) (k : string) (v : pyval) :
  Dict.get (Dict.set d k v) k = Some v.
Proof.
  induction d as [|[k' v'] d IH]; simpl.
  - now rewrite String.eqb_refl.
  - destruct (String.eqb k' k) eqn:Hk; simpl; now rewrite Hk.
Qed.

Lemma get_set_ne (d : Dict.t) (k k' : string) (v : pyval) :
  k <> k' -> Dict.get (Dict.set d k v) k' = Dict.get d k'.
Proof.
  intros Hne. induction d as [|[k0 v0] d IH]; simpl.
  - destruct (String.eqb_spec k k'); [contradiction|reflexivity].
  - destruct (String.eqb_spec k0 k) as [->|Hk]; simpl.
    + destruct (String.eqb_spec k k'); [contradiction|reflexivity].
    + now rewrite IH.
Qed.

Lemma In_keys_set (d : Dict.t) (k k' : string) (v : pyval) :
  In k' (Dict.keys (Dict.set d k v)) <-> k' = k \/ In k' (Dict.keys d).
Proof.
  induction d as [|[k0 v0] d IH]; simpl.
  - intuition.
  - destruct (String.eqb_spec k0 k) as [->|Hk]; simpl.
    + intuition.
    + rewrite IH. intuition.
Qed.

Lemma wf_set (d : Dict.t) (k : string) (v : pyval) :
  Dict.wf d -> Dict.wf (Dict.set d k v).
Proof.
  unfold Dict.wf. induction d as [|[k0 v0] d IH]; simpl.
  - intros _. apply NoDup_singleton.
  - intros Hnd. apply NoDup_cons in Hnd as [Hfresh Hnd].
    destruct (String.eqb_spec k0 k) as [->|Hk]; simpl.
    + now apply NoDup_cons.
    + apply NoDup_cons. split; [|now apply IH].
      rewrite list_elem_of_In, In_keys_set.
      rewrite list_elem_of_In in Hfresh. intros [->|Hin]; tauto.
Qed.

Lemma get_In_keys (d : Dict.t) (k : string) (v : pyval) :
  Dict.get d k = Some v -> In k (Dict.keys d).
Proof.
  induction d as [|[k' v'] d IH]; simpl; [discriminate|].
  destruct (String.eqb_spec k' k) as [->|_]; [now left|].
  intros H. right. now apply IH.
Qed.

Section Format.

Variable image_save : string -> ndarray -> outcome (list byte).

Lemma encode_image_name (b1 b2 : Dict.t) (f1 f2 data : pyval) :
  Dict.get b1 "format" = Some f1 -> Dict.get b2 "format" = Some f2 ->
  format_name f1 = format_name f2 ->
  encode_image image_save (PDict b2) data =
  encode_image image_save (PDict b1) data.
Proof.
  intros H1 H2 Hn. unfold encode_image.
  destruct (getitem data "raw") as [raw|]; [|reflexivity]. cbn.
  destruct (frombuffer raw) as [buf|]; [|reflexivity]. cbn.
  destruct (getitem data "height") as [hv|]; [|reflexivity]. cbn.
  destruct (getitem data "width") as [wv|]; [|reflexivity]. cbn.
  destruct (as_index _ hv) as [h|]; [|reflexivity]. cbn.
  destruct (as_index _ wv) as [w|]; [|reflexivity]. cbn.
  destruct (reshape buf h w) as [a|]; [|reflexivity]. cbn.
  rewrite H1, H2. cbn. now rewrite Hn.
Qed.

(** [encode_camera] on a well-formed frame is the specification's entry
    for the name the format specifier gives. *)
Lemma encode_camera_frame (b d : Dict.t) (f : pyval) (raw : list byte)
    (h w : Z) (ts : pyval) :
  Dict.get b "format" = Some f ->
  Dict.get d "raw" = Some (PBytes raw) ->
  Dict.get d "height" = Some (PInt h) ->
  Dict.get d "width" = Some (PInt w) ->
  Dict.get d "timestamp" = Some ts ->
  (0 < h)%Z -> (0 < w)%Z -> Z.of_nat (length raw) = (h * w * 4)%Z ->
  encode_camera image_save (PDict b) (PDict d) =
  (name ← format_name f; spec_entry image_save name f raw h w ts).
Proof.
  intros Hf Hr Hh Hw Ht H0h H0w Hlen. unfold encode_camera, spec_entry.
  rewrite (encode_image_frame image_save b d f raw h w) by assumption.
  destruct (format_name f) as [name|]; [|reflexivity]. cbn.
  destruct (image_save name _) as [bs|]; [|reflexivity]. cbn.
  unfold getitem. now rewrite Ht, Hf.
Qed.

(** An entry of the reply carries the bundle's format specifier. *)
Lemma encode_camera_format (b : Dict.t) (f data e : pyval) :
  Dict.get b "format" = Some f ->
  encode_camera image_save (PDict b) data = Ret e ->
  exists ts b64,
    e = PDict [("timestamp", ts); ("format", f); ("b64_data", PStr b64)]%string.
Proof.
  intros Hf. unfold encode_camera.
  destruct (encode_image image_save (PDict b) data) as [img|]; [|discriminate].
  cbn. destruct (getitem data "timestamp") as [ts|]; [|discriminate].
  cbn. rewrite Hf. cbn. intros [= <-]. eauto.
Qed.

Lemma encode_camera_with_format (b1 b2 : Dict.t) (f1 f2 data : pyval) :
  Dict.get b1 "format" = Some f1 -> Dict.get b2 "format" = Some f2 ->
  format_name f1 = format_name f2 ->
  encode_camera image_save (PDict b2) data =
  with_format f2 <$> encode_camera image_save (PDict b1) data.
Proof.
  intros H1 H2 Hn. unfold encode_camera.
  rewrite (encode_image_name b1 b2 f1 f2 data H1 H2 Hn).
  destruct (encode_image image_save (PDict b1) data) as [img|]; [|reflexivity].
  cbn. destruct (getitem data "timestamp") as [ts|]; [|reflexivity].
  cbn. rewrite H1, H2. reflexivity.
Qed.

Lemma build_res_with_format (b1 b2 : Dict.t) (f1 f2 : pyval) (its : Dict.t) :
  Dict.get b1 "format" = Some f1 -> Dict.get b2 "format" = Some f2 ->
  format_name f1 = format_name f2 ->
  forall acc,
    build_res image_save (PDict b2) its (map_values (with_format f2) acc) =
    map_values (with_format f2) <$> build_res image_save (PDict b1) its acc.
Proof.
  intros H1 H2 Hn.
  induction its as [|[cam_id data] rest IH]; intros acc; [reflexivity|].
  cbn [build_res]. destruct (String.eqb cam_id "format"); [apply IH|].
  rewrite (encode_camera_with_format b1 b2 f1 f2 data H1 H2 Hn).
  destruct (encode_camera image_save (PDict b1) data) as [e|]; [|reflexivity].
  cbn. rewrite <- map_values_set. apply IH.
Qed.

Lemma build_res_entries (cam_data : pyval) (its : Dict.t) :
  forall acc res,
    build_res image_save cam_data its acc = Ret res ->
    forall id e, In (id, e) res ->
      In (id, e) acc \/
      exists data, In (id, data) its /\ id <> "format"%string /\
                   encode_camera image_save cam_data data = Ret e.
Proof.
  induction its as [|[cam_id data] rest IH]; intros acc res.
  - intros [= <-]. auto.
  - cbn [build_res].
    destruct (String.eqb_spec cam_id "format") as [->|Hne].
    + intros H id e Hin. destruct (IH _ _ H _ _ Hin) as [?|(d & ? & ? & ?)];
        [now left|]. right. exists d. simpl. auto.
    + destruct (encode_camera image_save cam_data data) as [entry|] eqn:He;
        [|discriminate].
      cbn. intros H id e Hin.
      destruct (IH _ _ H _ _ Hin) as [Hacc|(d & ? & ? & ?)].
      * apply In_set in Hacc as [[-> ->]|?]; [|now left].
        right. exists data. simpl. auto.
      * right. exists d. simpl. auto.
Qed.

Lemma build_res_returns (cam_data : pyval) (its : Dict.t) :
  (forall id data,
     In (id, data) its -> id <> "format"%string ->
     exists e, encode_camera image_save cam_data data = Ret e) ->
  forall acc, exists res, build_res image_save cam_data its acc = Ret res.
Proof.
  induction its as [|[cam_id data] rest IH]; intros Henc acc.
  - now exists acc.
  - cbn [build_res].
    destruct (String.eqb_spec cam_id "format") as [->|Hne].
    + apply IH. intros id d Hin. apply Henc. now right.
    + destruct (Henc cam_id data (or_introl eq_refl) Hne) as [e ->]. cbn.
      apply IH. intros id d Hin. apply Henc. now right.
Qed.

Lemma build_res_lookup (cam_data : pyval) (its : Dict.t) : forall acc res,
  NoDup (Dict.keys acc ++ Dict.keys its) ->
  build_res image_save cam_data its acc = Ret res ->
  (forall id e, Dict.get acc id = Some e -> Dict.get res id = Some e) /\
  (forall id data,
     In (id, data) its -> id <> "format"%string ->
     exists e, encode_camera image_save cam_data data = Ret e /\
               Dict.get res id = Some e).
Proof.
  induction its as [|[cam_id data] rest IH]; intros acc res Hnd.
  - intros [= <-]. split; [auto|]. intros id d [].
  - cbn [build_res]. cbn in Hnd.
    apply NoDup_app in Hnd as (Hacc & Hdisj & Hits).
    apply NoDup_cons in Hits as [Hfresh Hrest].
    assert (Hnew : ~ In cam_id (Dict.keys acc)).
    { intros Hin. apply list_elem_of_In in Hin.
      apply (Hdisj _ Hin). now left. }
    assert (Hnd' : NoDup (Dict.keys acc ++ Dict.keys rest)).
    { apply NoDup_app. repeat split; auto.
      intros x Hx Hx'. apply (Hdisj x Hx). now right. }
    destruct (String.eqb_spec cam_id "format") as [->|Hne].
    + intros H. destruct (IH _ _ Hnd' H) as [Hkeep Hnew'].
      split; [exact Hkeep|].
      intros id d [[= <- <-]|Hin] Hid; [contradiction|]. now apply Hnew'.
    + destruct (encode_camera image_save cam_data data) as [entry|] eqn:He;
        [|discriminate].
      cbn. intros H.
      assert (Hnd2 : NoDup (Dict.keys (Dict.set acc cam_id entry)
                            ++ Dict.keys rest)).
      { rewrite keys_set_fresh by assumption. rewrite <- app_assoc.
        apply NoDup_app. repeat split; auto.
        now apply NoDup_cons. }
      destruct (IH _ _ Hnd2 H) as [Hkeep Hnew'].
      split.
      * intros id e Hget. apply Hkeep. rewrite get_set_ne; [exact Hget|].
        intros <-. apply Hnew. apply get_In_keys with e. exact Hget.
      * intros id d [[= <- <-]|Hin] Hid; [|now apply Hnew'].
        exists entry. split; [exact He|]. apply Hkeep, get_set_eq.
Qed.

End Format.

(** C8. Let one bundle give the format as the string [k] and another as a
    mapping whose first key is [k].  Both forms are accepted and the name
    [k] is what the codec gets: for every well-formed frame the entry the
    encoder makes is, under either bundle, the specification's entry for
    the image saved under [k], with the string as its [format] in the one
    case and the mapping in the other; the encoder fails only where the
    codec does.  For every frame whatever the encoder produces the same
    image bytes, or the same exception, under both bundles, and the reply
    built under the mapping form is the reply built under the string form
    with the [format] field of each entry replaced by the mapping.  A
    reply is built whenever every camera's frame can be encoded; a reply
    that is built holds, for every camera of the bundle, the entry the
    encoder makes of its frame, and every entry of it carries as [format]
    exactly the specifier of its bundle. *)
Theorem format_spec_forms
    (image_save : string -> ndarray -> outcome (list byte))
    (b1 b2 : Dict.t) (k : string) (opts : pyval) (more : Dict.t) :
  Dict.get b1 "format" = Some (PStr k) ->
  Dict.get b2 "format" = Some (PDict ((k, opts) :: more)) ->
  (forall d raw h w ts,
     Dict.get d "raw" = Some (PBytes raw) ->
     Dict.get d "height" = Some (PInt h) ->
     Dict.get d "width" = Some (PInt w) ->
     Dict.get d "timestamp" = Some ts ->
     (0 < h)%Z -> (0 < w)%Z -> Z.of_nat (length raw) = (h * w * 4)%Z ->
     encode_camera image_save (PDict b1) (PDict d) =
     spec_entry image_save k (PStr k) raw h w ts /\
     encode_camera image_save (PDict b2) (PDict d) =
     spec_entry image_save k (PDict ((k, opts) :: more)) raw h w ts) /\
  (forall data,
     encode_image image_save (PDict b2) data =
     encode_image image_save (PDict b1) data) /\
  (forall its,
     build_res image_save (PDict b2) its [] =
     map_values (with_format (PDict ((k, opts) :: more)))
       <$> build_res image_save (PDict b1) its []) /\
  (forall b f its,
     (b = b1 /\ f = PStr k) \/ (b = b2 /\ f = PDict ((k, opts) :: more)) ->
     Dict.wf its ->
     ((forall id data,
         In (id, data) its -> id <> "format"%string ->
         exists e, encode_camera image_save (PDict b) data = Ret e) ->
      exists res, build_res image_save (PDict b) its [] = Ret res) /\
     (forall res,
        build_res image_save (PDict b) its [] = Ret res ->
        (forall id data,
           In (id, data) its -> id <> "format"%string ->
           exists e, encode_camera image_save (PDict b) data = Ret e /\
                     Dict.get res id = Some e /\
                     getitem e "format" = Ret f) /\
        (forall id e, In (id, e) res -> getitem e "format" = Ret f))).
Proof.
  intros H1 H2.
  assert (Hecho : forall b f its res id e,
            Dict.get b "format" = Some f ->
            build_res image_save (PDict b) its [] = Ret res ->
            In (id, e) res -> getitem e "format" = Ret f).
  { intros b f its res id e Hf Hres Hin.
    destruct (build_res_entries image_save _ _ _ _ Hres _ _ Hin)
      as [[]|(data & _ & _ & He)].
    destruct (encode_camera_format image_save b f data e Hf He)
      as (ts & b64 & ->).
    reflexivity. }
  repeat apply conj.
  - intros d raw h w ts Hr Hh Hw Ht H0h H0w Hlen. split.
    + now rewrite (encode_camera_frame image_save b1 d (PStr k) raw h w ts).
    + now rewrite (encode_camera_frame image_save b2 d
                     (PDict ((k, opts) :: more)) raw h w ts).
  - intros data.
    now apply encode_image_name with (PStr k) (PDict ((k, opts) :: more)).
  - intros its.
    apply (build_res_with_format image_save b1 b2 (PStr k)
             (PDict ((k, opts) :: more)) its H1 H2 eq_refl []).
  - intros b f its Hb Hwf.
    assert (Hf : Dict.get b "format" = Some f)
      by (destruct Hb as [[-> ->]|[-> ->]]; assumption).
    split.
    + intros Henc.
      apply (build_res_returns image_save (PDict b) its); assumption.
    + intros res Hres. split.
      * intros id data Hin Hid.
        destruct (build_res_lookup image_save (PDict b) its [] res Hwf Hres)
          as [_ Hl].
        destruct (Hl id data Hin Hid) as (e & He & Hget).
        exists e. repeat split; try assumption.
        destruct (encode_camera_format image_save b f data e Hf He)
          as (ts & b64 & ->).
        reflexivity.
      * intros id e. now apply (Hecho b f its res).
Qed.

(** *** The keys of the reply *)

(** What a well-formed frame holds. *)
Lemma frame_ok_inv (data : pyval) :
  frame_ok data = true ->
  exists d raw h w ts,
    data = PDict d /\
    Dict.get d "raw" = Some (PBytes raw) /\
    Dict.get d "height" = Some (PInt h) /\
    Dict.get d "width" = Some (PInt w) /\
    Dict.get d "timestamp" = Some ts /\
    (0 < h)%Z /\ (0 < w)%Z /\ Z.of_nat (length raw) = (h * w * 4)%Z /\
    serializable ts = true.
Proof.
  unfold frame_ok. intros Hok.
  destruct data as [| | | | | |?|d]; try discriminate.
  destruct (Dict.get d "raw") as [[| | | | |raw| |]|] eqn:Hr; try discriminate.
  destruct (Dict.get d "height") as [[| |h| | | | |]|] eqn:Hh; try discriminate.
  destruct (Dict.get d "width") as [[| |w| | | | |]|] eqn:Hw; try discriminate.
  destruct (Dict.get d "timestamp") as [ts|] eqn:Ht; try discriminate.
  apply andb_prop in Hok as [Hok Hts].
  apply andb_prop in Hok as [Hok Hlen].
  apply andb_prop in Hok as [H0h H0w].
  apply Z.ltb_lt in H0h, H0w. apply Z.eqb_eq in Hlen.
  exists d, raw, h, w, ts. repeat split; try assumption; reflexivity.
Qed.

Section Keys.

Variable image_save : string -> ndarray -> outcome (list byte).

Lemma build_res_keys (cam_data : pyval) (its : Dict.t) : forall acc res,
  NoDup (Dict.keys acc ++ Dict.keys its) ->
  build_res image_save cam_data its acc = Ret res ->
  Dict.keys res = Dict.keys acc ++ filter (fun k => not_format k = true)
                                          (Dict.keys its).
Proof.
  induction its as [|[cam_id data] rest IH]; intros acc res Hnd.
  - intros [= <-]. simpl. now rewrite app_nil_r.
  - cbn [build_res]. simpl in Hnd.
    apply NoDup_app in Hnd as (Hacc & Hdisj & Hits).
    apply NoDup_cons in Hits as [Hfresh Hrest].
    assert (Hnew : ~ In cam_id (Dict.keys acc)).
    { intros Hin. apply list_elem_of_In in Hin.
      apply (Hdisj _ Hin). now left. }
    change (Dict.keys ((cam_id, data) :: rest))
      with (cam_id :: Dict.keys rest).
    destruct (String.eqb_spec cam_id "format") as [->|Hne].
    + intros H. rewrite filter_cons_False; [|now vm_compute].
      apply IH; [|exact H].
      apply NoDup_app. repeat split; auto.
      intros x Hx Hx'. apply (Hdisj x Hx). now right.
    + destruct (encode_camera image_save cam_data data) as [entry|];
        [|discriminate].
      unfold mbind, outcome_bind. intros H.
      rewrite filter_cons_True
        by (unfold not_format; apply negb_true_iff; now apply String.eqb_neq).
      assert (Hnd : NoDup (Dict.keys (Dict.set acc cam_id entry)
                           ++ Dict.keys rest)).
      { rewrite keys_set_fresh by assumption. rewrite <- app_assoc.
        apply NoDup_app. repeat split; auto.
        now apply NoDup_cons. }
      rewrite (IH _ _ Hnd H), keys_set_fresh by assumption.
      now rewrite <- app_assoc.
Qed.

Lemma encode_camera_total (bundle : Dict.t) (fmt data : pyval) (name : string) :
  Dict.get bundle "format" = Some fmt ->
  format_name fmt = Ret name ->
  serializable fmt = true ->
  frame_ok data = true ->
  codec_returns image_save name data ->
  exists e, encode_camera image_save (PDict bundle) data = Ret e /\
            serializable e = true.
Proof.
  intros Hf Hn Hsf Hok (a & bs & Ha & Hbs).
  destruct (frame_ok_inv data Hok)
    as (d & raw & h & w & ts & -> & Hr & Hh & Hw & Ht & H0h & H0w & Hlen & Hts).
  cbn in Ha. rewrite Hr, Hh, Hw in Ha. injection Ha as <-.
  eexists.
  rewrite (encode_camera_frame image_save bundle d fmt raw h w ts)
    by assumption.
  rewrite Hn. unfold spec_entry. cbn. rewrite Hbs. cbn.
  split; [reflexivity|]. cbn. now rewrite Hts, Hsf.
Qed.

Lemma build_res_total (bundle : Dict.t) (fmt : pyval) (name : string)
    (its : Dict.t) :
  Dict.get bundle "format" = Some fmt ->
  format_name fmt = Ret name ->
  serializable fmt = true ->
  Forall (fun kv => not_format (fst kv) = true ->
                    frame_ok (snd kv) = true /\
                    codec_returns image_save name (snd kv))
         its ->
  forall acc,
    Forall (fun kv => serializable (snd kv) = true) acc ->
    exists res,
      build_res image_save (PDict bundle) its acc = Ret res /\
      Forall (fun kv => serializable (snd kv) = true) res.
Proof.
  intros Hf Hn Hsf.
  induction its as [|[cam_id data] rest IH]; intros Hits acc Hacc.
  - exists acc. now split.
  - inversion Hits as [|? ? Hhd Htl]; subst. cbn [build_res fst snd] in *.
    unfold not_format in Hhd.
    destruct (String.eqb cam_id "format"); [now apply IH|].
    destruct (Hhd eq_refl) as [Hok Hcodec].
    destruct (encode_camera_total bundle fmt data name Hf Hn Hsf Hok Hcodec)
      as (e & -> & Hse).
    cbn. apply IH; [assumption|].
    apply Forall_forall. intros [k v] Hin. apply list_elem_of_In in Hin.
    apply In_set in Hin as [[-> ->]|Hin]; [exact Hse|].
    rewrite Forall_forall in Hacc.
    apply (Hacc (k, v)). now apply list_elem_of_In.
Qed.

End Keys.

Lemma serializable_dict (d : Dict.t) :
  Forall (fun kv => serializable (snd kv) = true) d ->
  serializable (PDict d) = true.
Proof.
  intros H. simpl. apply forallb_forall. intros [k v] Hin.
  rewrite Forall_forall in H. apply (H (k, v)). now apply list_elem_of_In.
Qed.

(** C10. Let the relay serve a bundle, a dictionary with no key twice.
    Whenever [handle_cam_send] returns normally it has sent exactly one
    reply, whose top-level keys are the keys of the bundle other than
    [format], in the bundle's order and each once.  And it does return
    normally when the reply socket owes a reply, the bundle carries a
    format specifier that names a format, and every other key holds a
    well-formed frame, of positive height and width, on whose image the
    codec returns for that format. *)
Theorem reply_keys_are_camera_ids
    (image_save : string -> ndarray -> outcome (list byte))
    (bundle : Dict.t) (r : relay) :
  Dict.wf bundle ->
  (forall r',
     handle_cam_send image_save (PDict bundle) r = (Ret tt, r') ->
     exists res,
       trace r' = trace r ++ [ClientSend (PDict res)] /\
       Dict.keys res = filter (fun k => not_format k = true) (Dict.keys bundle) /\
       ~ In "format"%string (Dict.keys res) /\
       Dict.wf res) /\
  (bundle_ok image_save bundle -> awaiting_reply (cam_rep r) = true ->
   exists r', handle_cam_send image_save (PDict bundle) r = (Ret tt, r')).
Proof.
  intros Hwf. split.
  - intros r'. unfold handle_cam_send, mbind, M_bind, bind, lift, items.
    destruct (build_res image_save (PDict bundle) bundle []) as [res|] eqn:Hres;
      [|discriminate].
    unfold cam_send.
    destruct (serializable (PDict res)); [|discriminate].
    destruct (awaiting_reply (cam_rep r)); [|discriminate].
    intros [= <-]. exists res.
    pose proof (build_res_keys image_save (PDict bundle) bundle [] res
                  Hwf Hres) as Hkeys.
    simpl in Hkeys. repeat apply conj; [reflexivity|exact Hkeys| |].
    + rewrite Hkeys. intros Hin. apply list_elem_of_In in Hin.
      apply list_elem_of_filter in Hin as [Hnf _]. discriminate.
    + unfold Dict.wf. rewrite Hkeys. now apply NoDup_filter.
  - intros (fmt & name & Hf & Hn & Hsf & Hits) Haw.
    destruct (build_res_total image_save bundle fmt name bundle
                Hf Hn Hsf Hits [] (Forall_nil_2 _)) as (res & Hres & Hser).
    unfold handle_cam_send, mbind, M_bind, bind, lift, items.
    rewrite Hres. unfold cam_send.
    rewrite (serializable_dict res Hser), Haw. eauto.
Qed.

(** ** The claims at concrete inputs *)

Ltac known_id :=
  unfold known_ids, act_id_motor_group_index_map; simpl;
  solve [repeat (first [left; reflexivity | right])].

Ltac unknown_id :=
  unfold known_ids, act_id_motor_group_index_map; simpl;
  let H := fresh in
  intros H; repeat (destruct H as [H|H]; [discriminate H|]); exact H.

Ltac ids_ok_tac :=
  repeat (apply Forall_cons_2;
          [first [intros _; known_id
                 | let H := fresh in intros H; vm_compute in H; discriminate H]
          |]);
  apply Forall_nil_2.

Lemma plain_split (n : nat) (rest : list byte) :
  split_unary (replicate n x01 ++ x00 :: rest) = Some (n, rest).
Proof.
  induction n as [|n IH]; [reflexivity|].
  cbn [replicate app split_unary]. now rewrite IH.
Qed.

Lemma plain_lossless (name : string) (a : ndarray) :
  (0 < nd_height a)%Z -> (0 < nd_width a)%Z ->
  exists bs, plain_save name a = Ret bs /\ plain_open bs = Some a.
Proof.
  intros Hh Hw. eexists. split; [reflexivity|].
  unfold plain_open. rewrite plain_split. cbn. rewrite plain_split. cbn.
  destruct a as [h w data]. simpl in *. now rewrite !Z2Nat.id by lia.
Qed.

(** A garbled payload stops the rover and [handle_mech] still returns
    [True], not a stop indication. *)
Lemma handle_mech_garbled_returns_true :
  fst (recv_json (mech_rep (rover [Garbled]))) = OtherExc /\
  fst (handle_mech (rover [Garbled])) = Ret true /\
  fst (handle_mech (rover [Garbled])) <> Ret false.
Proof. repeat split. discriminate. Qed.

Lemma handle_mech_error_stops_rover_witness :
  exists w', handle_mech (rover [Fault]) = (Ret true, w') /\
             Forall (fun m => velocity m = float_zero) (drv_motors w').
Proof.
  destruct (handle_mech_error_stops_rover (rover [Fault]) (or_introl eq_refl))
    as (w' & Hrun & Hzero & _).
  exists w'. split; assumption.
Defined.

(** The payload [null] decodes, and gets no acknowledgement. *)
Lemma handle_mech_null_unacknowledged :
  fst (recv_json (mech_rep (rover [Json PNone]))) = Loaded PNone /\
  calls (snd (handle_mech (rover [Json PNone]))) = [] /\
  ~ In (SendString DemsOk) (calls (snd (handle_mech (rover [Json PNone])))).
Proof. repeat split. intros []. Qed.

Lemma handle_mech_ack_before_actuation_witness :
  exists evs,
    calls (snd (handle_mech (rover [Json dems_fl]))) =
    calls (rover [Json dems_fl]) ++ SendString DemsOk :: evs /\
    Forall (fun e => is_send e = false) evs.
Proof.
  apply (handle_mech_ack_before_actuation (rover [Json dems_fl]) dems_fl).
  - reflexivity.
  - discriminate.
Defined.

Lemma NoDup_keys_2 (a b : string) (x y : pyval) :
  a <> b -> Dict.wf [(a, x); (b, y)].
Proof.
  intros H. unfold Dict.wf. simpl. apply NoDup_cons. split.
  - intros Hin. apply list_elem_of_In in Hin. simpl in Hin.
    destruct Hin as [?|[]]. congruence.
  - apply NoDup_singleton.
Qed.

Lemma actuate_known_demand_witness :
  exists w',
    actuate_mech_dems (PDict dems_mixed) (rover []) = (Ret tt, w') /\
    (exists m, str_motors w' !! 0 = Some m /\ position m = two) /\
    (exists m, drv_motors w' !! 0 = Some m /\
               position m = float_inf /\ velocity m = two) /\
    str_motors w' !! 1 = Some rest_motor.
Proof.
  destruct (actuate_known_demand dems_mixed
              [("StrFL", two); ("ArmBase", two)]%string
              [("DrvFL", two); ("StrML", two)]%string (rover []))
    as (w' & Hrun & Hstr & Hdrv & Hsfr & _).
  - reflexivity.
  - reflexivity.
  - apply NoDup_keys_2. discriminate.
  - apply NoDup_keys_2. discriminate.
  - repeat (apply Forall_cons_2; [known_id|]). apply Forall_nil_2.
  - split; reflexivity.
  - exists w'. split; [exact Hrun|]. repeat apply conj.
    + destruct (Hstr "StrFL"%string two (or_introl eq_refl) eq_refl)
        as (i & m & Hi & Hm & Hx).
      injection Hi as <-. eauto.
    + destruct (Hdrv "DrvFL"%string two (or_introl eq_refl) eq_refl)
        as (i & m & Hi & Hm & Hx).
      injection Hi as <-. eauto.
    + rewrite (Hsfr 1); [reflexivity|].
      intros a x [[= <- <-]|[[= <- <-]|[]]] Hp; vm_compute; discriminate.
Defined.

Lemma cam_process_one_request_in_flight_witness :
  trace (snd (cam_process plain_save two_requests relay_init)) =
  [ClientRecv (Loaded cam_req_png); PipeSend cam_req_png;
   PipeRecv (PDict bundle_png); ClientSend reply_png]
    ++ ClientRecv (Loaded cam_req_png)
    :: [PipeSend cam_req_png; PipeRecv (PStr "STOP"); PipeClose] /\
  outstanding [ClientRecv (Loaded cam_req_png); PipeSend cam_req_png;
               PipeRecv (PDict bundle_png); ClientSend reply_png] = false /\
  exists res,
    In (ClientSend res)
       [PipeSend cam_req_png; PipeRecv (PDict bundle_png); ClientSend reply_png].
Proof.
  assert (Htr : trace (snd (cam_process plain_save two_requests relay_init)) =
                [ClientRecv (Loaded cam_req_png); PipeSend cam_req_png;
                 PipeRecv (PDict bundle_png); ClientSend reply_png]
                  ++ ClientRecv (Loaded cam_req_png)
                  :: [PipeSend cam_req_png; PipeRecv (PStr "STOP"); PipeClose])
    by (vm_compute; reflexivity).
  destruct (cam_process_one_request_in_flight plain_save two_requests)
    as (Hrecv & _ & Hbetween & _).
  split; [exact Htr|]. split.
  - exact (Hrecv _ _ _ Htr).
  - exact (Hbetween [] cam_req_png
             [PipeSend cam_req_png; PipeRecv (PDict bundle_png);
              ClientSend reply_png]
             cam_req_png
             [PipeSend cam_req_png; PipeRecv (PStr "STOP"); PipeClose] Htr).
Defined.

(** An id outside the known set that begins with [Drv] is not ignored. *)
Lemma unknown_drive_id_raises :
  ~ In "DrvXX"%string known_ids /\
  fst (actuate_mech_dems (demand [] [("DrvXX", two)]%string) (rover []))
  = Raise KeyError.
Proof. split; [unknown_id|reflexivity]. Qed.

Lemma unknown_id_ignored_unless_class_prefix_witness :
  actuate_mech_dems (demand [] [("Wheel7", two)]%string) (rover []) =
  actuate_mech_dems (demand [] []) (rover []) /\
  actuate_mech_dems (demand [("Wheel7", two)]%string []) (rover []) =
  actuate_mech_dems (demand [] []) (rover []) /\
  fst (actuate_mech_dems (demand [("StrXX", two)]%string []) (rover []))
  = Raise KeyError /\
  fst (actuate_mech_dems (demand [] [("DrvXX", two)]%string) (rover []))
  = Raise KeyError.
Proof.
  destruct (unknown_id_ignored_unless_class_prefix [] [] [] []
              "Wheel7" two (rover [])) as (Hp & Hs & _).
  destruct (unknown_id_ignored_unless_class_prefix [] [] [] []
              "StrXX" two (rover [])) as (_ & _ & Hstr & _).
  destruct (unknown_id_ignored_unless_class_prefix [] [] [] []
              "DrvXX" two (rover [])) as (_ & _ & _ & Hdrv).
  repeat apply conj.
  - apply Hs. discriminate.
  - apply Hp. discriminate.
  - refine (f_equal fst (Hstr _ eq_refl (Forall_nil_2 _) (conj eq_refl eq_refl))).
    unknown_id.
  - refine (f_equal fst (Hdrv _ eq_refl (Forall_nil_2 _) (Forall_nil_2 _)
                           (conj eq_refl eq_refl))).
    unknown_id.
Defined.

(** Scenario A of the specification: the demand without [pos_rad] is
    acknowledged, then raises before the drive motor is touched. *)
Lemma speed_only_demand_raises :
  Dict.get dems_speed_only "pos_rad" = None /\
  handle_mech (rover [Json (PDict dems_speed_only)]) =
  (Raise KeyError,
   World (replicate 6 rest_motor) (replicate 6 rest_motor)
         (RepSocket [] false) [SendString DemsOk]).
Proof. split; reflexivity. Qed.

(** A demand of known ids only, without [pos_rad]: the drive id it names
    is not given its velocity, nothing is applied. *)
Lemma known_drive_id_not_applied :
  Forall (fun a => In a known_ids) (Dict.keys [("DrvFL", two)]%string) /\
  Dict.get dems_speed_only "speed_rads" = Some (PDict [("DrvFL", two)]%string) /\
  index_of "DrvFL" = Ret 0 /\
  actuate_mech_dems (PDict dems_speed_only) (rover []) =
  (Raise KeyError, rover []) /\
  ~ (exists m,
       drv_motors (snd (actuate_mech_dems (PDict dems_speed_only) (rover [])))
         !! 0 = Some m /\
       velocity m = two).
Proof.
  split; [|split; [|split; [|split]]].
  - apply Forall_cons_2; [known_id|apply Forall_nil_2].
  - reflexivity.
  - reflexivity.
  - reflexivity.
  - intros (m & Hm & Hv). vm_compute in Hm. injection Hm as <-.
    discriminate Hv.
Qed.

Lemma handle_mech_demand_keys_witness :
  (exists w', handle_mech (rover [Json dems_fl]) = (Ret true, w')) /\
  (exists w', handle_mech (rover [Json (PDict dems_speed_only)])
              = (Raise KeyError, w')) /\
  (exists w', handle_mech (rover [Json (PDict dems_pos_only)])
              = (Raise KeyError, w')).
Proof.
  repeat apply conj.
  - destruct (handle_mech_demand_keys (rover [Json dems_fl])
                [("pos_rad", PDict []);
                 ("speed_rads", PDict [("DrvFL", two)])]%string
                eq_refl (conj eq_refl eq_refl)) as (Hboth & _).
    destruct (Hboth [] [("DrvFL", two)]%string eq_refl eq_refl)
      as (w' & Hrun & _).
    + constructor.
    + ids_ok_tac.
    + now exists w'.
  - destruct (handle_mech_demand_keys (rover [Json (PDict dems_speed_only)])
                dems_speed_only eq_refl (conj eq_refl eq_refl))
      as (_ & Hnopos & _).
    destruct (Hnopos eq_refl) as (w' & Hrun & _). now exists w'.
  - destruct (handle_mech_demand_keys (rover [Json (PDict dems_pos_only)])
                dems_pos_only eq_refl (conj eq_refl eq_refl))
      as (_ & _ & Hnospeed).
    destruct (Hnospeed [("StrFL", two)]%string eq_refl eq_refl)
      as (w' & Hrun & _).
    + ids_ok_tac.
    + now exists w'.
Defined.

Lemma png_round_trip_witness :
  exists bs b64,
    encode_camera plain_save (PDict bundle_png) (PDict frame_1x1) =
    Ret (PDict [("timestamp", PInt 1700000000000); ("format", PStr "png");
                ("b64_data", PStr b64)]%string) /\
    b64decode (list_ascii_of_string b64) = Some bs /\
    plain_open bs = Some (NdArray 1 1 [x00; x00; xff; xff]).
Proof.
  destruct (png_round_trip plain_save plain_open bundle_png frame_1x1
              [xff; x00; x00; xff] 1 1 (PInt 1700000000000)
              (plain_lossless "png") eq_refl eq_refl eq_refl eq_refl eq_refl
              eq_refl eq_refl eq_refl)
    as (bs & rgba & b64 & Hrun & Hdec & Hopen & Hlen & Hpx).
  exists bs, b64. repeat apply conj; [exact Hrun|exact Hdec|].
  rewrite Hopen. do 2 f_equal.
  destruct (Hpx 0 ltac:(simpl; lia)) as (H0 & H1 & H2 & H3).
  destruct rgba as [|r [|g [|b [|a [|]]]]]; try discriminate.
  now injection H0 as ->; injection H1 as ->;
      injection H2 as ->; injection H3 as ->.
Defined.

Lemma format_spec_forms_witness :
  encode_camera plain_save (PDict bundle_png_opts) (PDict frame_1x1) =
  Ret (PDict [("timestamp", PInt 1700000000000);
              ("format", PDict [("png", PDict [])]);
              ("b64_data", PStr "AQABAAAA//8=")]%string) /\
  build_res plain_save (PDict bundle_png_opts) bundle_png_opts [] =
  map_values (with_format (PDict [("png", PDict [])]%string))
    <$> build_res plain_save (PDict bundle_png) bundle_png_opts [].
Proof.
  destruct (format_spec_forms plain_save bundle_png bundle_png_opts
              "png" (PDict []) [] eq_refl eq_refl) as (Hentry & _ & Hres & _).
  split; [|apply Hres].
  destruct (Hentry frame_1x1 [xff; x00; x00; xff] 1%Z 1%Z
              (PInt 1700000000000) eq_refl eq_refl eq_refl eq_refl
              eq_refl eq_refl eq_refl) as [_ H2].
  rewrite H2. reflexivity.
Defined.

Lemma reply_keys_are_camera_ids_witness :
  exists r' res,
    handle_cam_send plain_save (PDict bundle_png)
      (Relay (RepSocket [] true) [] true []) = (Ret tt, r') /\
    trace r' = [ClientSend (PDict res)] /\
    Dict.keys res = ["LeftNav"%string].
Proof.
  destruct (reply_keys_are_camera_ids plain_save bundle_png
              (Relay (RepSocket [] true) [] true []))
    as (Hkeys & Htotal).
  - apply NoDup_keys_2. discriminate.
  - destruct Htotal as (r' & Hrun).
    + exists (PStr "png"), "png"%string.
      repeat apply conj; try reflexivity.
      repeat (apply Forall_cons_2;
              [let H := fresh in
               intros H; vm_compute in H;
               first [discriminate H
                     | split; [reflexivity
                              | eexists _, _; split; reflexivity]]|]).
      apply Forall_nil_2.
    + reflexivity.
    + destruct (Hkeys r' Hrun) as (res & Htr & Hk & _).
      exists r', res. repeat apply conj; assumption.
Defined.

(** * Further properties *)

(** ** The outcomes of [handle_mech] *)

Lemma handle_mech_nothing (w : world) :
  fst (recv_json (mech_rep w)) = Again \/
  fst (recv_json (mech_rep w)) = Loaded PNone ->
  handle_mech w = (Ret true, received w).
Proof.
  intros Hr. unfold handle_mech, mech_recv, received.
  unfold mbind, M_bind, bind.
  destruct (recv_json (mech_rep w)) as [r s]. simpl in Hr.
  destruct Hr as [->| ->]; reflexivity.
Qed.

Lemma steady_bind {A B} (m : M world A) (k : A -> M world B) :
  steady m -> (forall a, steady (k a)) -> steady (m ≫= k).
Proof.
  intros Hm Hk w Hw. unfold mbind, M_bind, bind.
  destruct (Hm w Hw) as [Hw1 Ho1].
  destruct (m w) as [[a|e] w1]; simpl in *; [|auto].
  now apply Hk.
Qed.

Lemma steady_ret {A} (a : A) : steady (ret a).
Proof. intros w Hw. now split. Qed.

Lemma steady_lift {A} (o : outcome A) : lookup_error_only o -> steady (lift o).
Proof. intros Ho w Hw. now split. Qed.

Lemma steady_setter (g : group) (i : nat) (x : pyval) :
  i < 6 -> steady (setPosition g i x) /\ steady (setVelocity g i x).
Proof.
  intros Hi. split; intros w [H1 H2];
    [rewrite setPosition_run|rewrite setVelocity_run];
    try (destruct g; simpl; lia);
    (split; [|exact I]); destruct g; split; simpl;
    rewrite ?length_alter; assumption.
Qed.

Lemma index_of_error (a : string) : lookup_error_only (index_of a).
Proof.
  unfold index_of. destruct (assoc act_id_motor_group_index_map a); simpl; auto.
Qed.

Lemma getitem_error (v : pyval) (k : string) : lookup_error_only (getitem v k).
Proof.
  destruct v; simpl; auto. destruct (Dict.get d k); simpl; auto.
Qed.

Lemma items_error (v : pyval) : lookup_error_only (items v).
Proof. destruct v; simpl; auto. Qed.

Lemma steady_indexed {B} (a : string) (k : nat -> M world B) :
  (forall i, i < 6 -> steady (k i)) -> steady (lift (index_of a) ≫= k).
Proof.
  intros Hk w Hw. unfold mbind, M_bind, bind, lift, index_of.
  destruct (assoc act_id_motor_group_index_map a) as [i|] eqn:Hi.
  - apply Hk; [now apply index_lt_6 with a|assumption].
  - split; [assumption|simpl; auto].
Qed.

Lemma steady_actuate_pos (pos : Dict.t) : steady (actuate_pos pos).
Proof.
  induction pos as [|[a x] rest IH]; [apply steady_ret|].
  cbn [actuate_pos]. apply steady_bind; [|auto].
  destruct (String.eqb (prefix3 a) "Str"); [|apply steady_ret].
  apply steady_indexed. intros i Hi. now apply steady_setter.
Qed.

Lemma steady_actuate_speed (speed : Dict.t) : steady (actuate_speed speed).
Proof.
  induction speed as [|[a x] rest IH]; [apply steady_ret|].
  cbn [actuate_speed]. apply steady_bind; [|auto].
  destruct (String.eqb (prefix3 a) "Drv"); [|apply steady_ret].
  apply steady_indexed. intros i Hi.
  apply steady_bind; [|intros _]; now apply steady_setter.
Qed.

Lemma steady_actuate_mech_dems (dems : pyval) : steady (actuate_mech_dems dems).
Proof.
  unfold actuate_mech_dems.
  apply steady_bind; [apply steady_lift, getitem_error|intros p].
  apply steady_bind; [apply steady_lift, items_error|intros pos].
  apply steady_bind; [apply steady_actuate_pos|intros _].
  apply steady_bind; [apply steady_lift, getitem_error|intros sp].
  apply steady_bind; [apply steady_lift, items_error|intros speed].
  apply steady_actuate_speed.
Qed.

(** X1. On the six-wheeled rover, whatever is on the command socket,
    [handle_mech] either returns [True] or raises [KeyError], [TypeError]
    or [AttributeError]: it never returns [False], never runs past the end
    of a motor list and never fails on its own send; and the rover has six
    steering and six drive motors afterwards. *)
Theorem handle_mech_outcomes (w : world) :
  six_wheeled w ->
  six_wheeled (snd (handle_mech w)) /\
  (fst (handle_mech w) = Ret true \/
   fst (handle_mech w) = Raise KeyError \/
   fst (handle_mech w) = Raise TypeError \/
   fst (handle_mech w) = Raise AttributeError).
Proof.
  intros Hw.
  destruct (fst (recv_json (mech_rep w))) as [| | |v] eqn:Hr.
  - rewrite handle_mech_nothing by auto. split; [exact Hw|now left].
  - rewrite handle_mech_failed by auto. split; [|now left].
    destruct Hw as [H1 H2]. split; simpl; [assumption|now rewrite length_map].
  - rewrite handle_mech_failed by auto. split; [|now left].
    destruct Hw as [H1 H2]. split; simpl; [assumption|now rewrite length_map].
  - assert (Hcase : v = PNone \/ v <> PNone)
      by (destruct v; auto; right; discriminate).
    destruct Hcase as [->|Hv].
    + rewrite handle_mech_nothing by auto. split; [exact Hw|now left].
    + rewrite (handle_mech_loaded w v Hr Hv).
      destruct (steady_actuate_mech_dems v (acknowledged w) Hw) as [Hw' Ho].
      unfold mbind, M_bind, bind.
      destruct (actuate_mech_dems v (acknowledged w)) as [[[]|e] w1];
        simpl in *; split; auto.
      destruct Ho as [->|[->| ->]]; auto.
Qed.

(** X2. A payload that decodes to something other than an object or
    [null] (a number, a string, a list, a boolean) is acknowledged and then
    makes [handle_mech] raise [TypeError] with no motor touched; an object
    whose [pos_rad] is not a mapping is acknowledged and raises
    [AttributeError] with no motor touched. *)
Theorem handle_mech_not_a_mapping (w : world) (v : pyval) :
  fst (recv_json (mech_rep w)) = Loaded v ->
  (v <> PNone -> is_dict v = false ->
   handle_mech w = (Raise TypeError, acknowledged w)) /\
  (forall d p,
     v = PDict d -> Dict.get d "pos_rad" = Some p -> is_dict p = false ->
     handle_mech w = (Raise AttributeError, acknowledged w)).
Proof.
  intros Hr. split.
  - intros Hv Hd. rewrite (handle_mech_loaded w v Hr Hv).
    destruct v; try discriminate; try contradiction; reflexivity.
  - intros d p -> Hp Hd.
    rewrite (handle_mech_loaded w (PDict d) Hr) by discriminate.
    unfold mbind at 1. unfold M_bind, bind.
    unfold actuate_mech_dems, getitem. rewrite Hp.
    destruct p; try discriminate; reflexivity.
Qed.

(** X3. When the command socket owes a reply, [handle_mech] cannot
    receive: it sends nothing, stops the rover, returns [True] and leaves
    the socket as it was, still owing the reply and with its pending frames
    unread, so that the same happens at every later call.  The socket gets
    into that state with a payload that fails to decode and with the payload
    [null]: both are taken off the socket and never answered. *)
Theorem handle_mech_owing_reply (w : world) :
  (awaiting_reply (mech_rep w) = true ->
   exists w',
     handle_mech w = (Ret true, w') /\
     mech_rep w' = mech_rep w /\
     Forall (fun m => velocity m = float_zero) (drv_motors w') /\
     calls w' = calls w ++ map (fun i => SetVelocity Drv i float_zero)
                               (seq 0 (length (drv_motors w)))) /\
  (fst (recv_json (mech_rep w)) = OtherExc \/
   fst (recv_json (mech_rep w)) = Loaded PNone ->
   awaiting_reply (mech_rep (snd (handle_mech w))) = true /\
   length (inbox (mech_rep (snd (handle_mech w))))
   < length (inbox (mech_rep w)) /\
   forall msg, ~ In (SendString msg) (skipn (length (calls w))
                                            (calls (snd (handle_mech w))))).
Proof.
  split.
  - intros Haw.
    assert (Hrecv : recv_json (mech_rep w) = (ZmqErr, mech_rep w))
      by (unfold recv_json; now rewrite Haw).
    rewrite handle_mech_failed by (left; now rewrite Hrecv).
    eexists. split; [reflexivity|].
    unfold received. rewrite Hrecv. simpl. repeat split.
    apply Forall_map_set_velocity.
  - intros Hr.
    assert (Hsock : awaiting_reply (snd (recv_json (mech_rep w))) = true /\
                    length (inbox (snd (recv_json (mech_rep w))))
                    < length (inbox (mech_rep w))).
    { unfold recv_json in *. destruct (awaiting_reply (mech_rep w)).
      - destruct Hr; discriminate.
      - destruct (inbox (mech_rep w)) as [|[| |v] q]; simpl in *;
          destruct Hr as [Hr|Hr]; try discriminate; split; auto. }
    destruct Hr as [Hr|Hr].
    + rewrite handle_mech_failed by auto. simpl.
      destruct Hsock as [H1 H2]. repeat split; auto.
      intros msg. rewrite drop_app_length.
      intros Hin. apply in_map_iff in Hin as (i & Hi & _). discriminate.
    + rewrite handle_mech_nothing by auto. simpl.
      destruct Hsock as [H1 H2]. repeat split; auto.
      intros msg. rewrite drop_all. intros [].
Qed.

(** X5. [stop()] after a demand: on the six-wheeled rover, once a demand
    with known ids has been applied, [stop()] leaves every steering motor
    as the demand left it and every drive motor named in [speed_rads] in
    unbounded rotation (position [+inf]) at velocity [0.0]; a second
    [stop()] changes no setpoint. *)
Theorem stop_after_demand (d pos speed : Dict.t) (w : world) :
  Dict.get d "pos_rad" = Some (PDict pos) ->
  Dict.get d "speed_rads" = Some (PDict speed) ->
  Dict.wf speed -> ids_ok "Str" pos -> ids_ok "Drv" speed ->
  six_wheeled w ->
  let w1 := snd (actuate_mech_dems (PDict d) w) in
  let w2 := snd (stop w1) in
  str_motors w2 = str_motors w1 /\
  (forall a x i, In (a, x) speed -> prefix3 a = "Drv"%string ->
     index_of a = Ret i ->
     exists m, drv_motors w2 !! i = Some m /\
               position m = float_inf /\ velocity m = float_zero) /\
  str_motors (snd (stop w2)) = str_motors w2 /\
  drv_motors (snd (stop w2)) = drv_motors w2.
Proof.
  intros Hp Hs Hwf Hokp Hoks Hsix w1 w2. subst w1 w2.
  rewrite (actuate_mech_dems_run d pos speed w Hp Hs Hokp Hoks Hsix).
  destruct Hsix as [Hl1 Hl2]. cbn [snd stop str_motors drv_motors].
  repeat apply conj.
  - reflexivity.
  - intros a x i Hin Hpre Hi. unfold index_of in Hi.
    destruct (assoc act_id_motor_group_index_map a) as [j|] eqn:Hj;
      [|discriminate].
    injection Hi as ->.
    destruct (apply_speed_sets speed a x i (drv_motors w) Hwf Hin Hpre Hj)
      as (m & Hm & Hpos & _).
    { rewrite Hl2. now apply index_lt_6 with a. }
    exists (set_velocity float_zero m).
    rewrite list_lookup_fmap, Hm. auto.
  - reflexivity.
  - rewrite map_map. apply map_ext. intros m. reflexivity.
Qed.

(** ** The order of a demand's entries *)

Lemma keys_Permutation (l l' : Dict.t) :
  l ≡ₚ l' -> Dict.keys l ≡ₚ Dict.keys l'.
Proof. apply Permutation_map. Qed.

Lemma apply_pos_perm (l l' : Dict.t) :
  l ≡ₚ l' -> Dict.wf l -> forall ms, apply_pos l ms = apply_pos l' ms.
Proof.
  unfold Dict.wf.
  induction 1 as [|[a x] l l' Hp IH|[a x] [b y] l|l l' l'' H1 IH1 H2 IH2];
    intros Hnd ms.
  - reflexivity.
  - simpl in Hnd. apply NoDup_cons in Hnd as [_ Hnd]. wsimpl.
    destruct (assoc act_id_motor_group_index_map a); [|now apply IH].
    destruct (String.eqb (prefix3 a) "Str"); now apply IH.
  - simpl in Hnd. apply NoDup_cons in Hnd as [Hb _]. wsimpl.
    destruct (assoc act_id_motor_group_index_map b) as [j|] eqn:Hj;
      destruct (assoc act_id_motor_group_index_map a) as [i|] eqn:Hi;
      try reflexivity.
    destruct (String.eqb_spec (prefix3 b) "Str") as [Hpb|];
      destruct (String.eqb_spec (prefix3 a) "Str") as [Hpa|];
      try reflexivity.
    rewrite list_alter_alter_ne; [reflexivity|].
    intros ->. apply Hb. rewrite (index_inj _ _ _ _ Hpb Hpa Hj Hi).
    now left.
  - rewrite IH1 by assumption. apply IH2.
    now rewrite <- (keys_Permutation _ _ H1).
Qed.

Lemma apply_speed_perm (l l' : Dict.t) :
  l ≡ₚ l' -> Dict.wf l -> forall ms, apply_speed l ms = apply_speed l' ms.
Proof.
  unfold Dict.wf.
  induction 1 as [|[a x] l l' Hp IH|[a x] [b y] l|l l' l'' H1 IH1 H2 IH2];
    intros Hnd ms.
  - reflexivity.
  - simpl in Hnd. apply NoDup_cons in Hnd as [_ Hnd]. wsimpl.
    destruct (assoc act_id_motor_group_index_map a); [|now apply IH].
    destruct (String.eqb (prefix3 a) "Drv"); now apply IH.
  - simpl in Hnd. apply NoDup_cons in Hnd as [Hb _]. wsimpl.
    destruct (assoc act_id_motor_group_index_map b) as [j|] eqn:Hj;
      destruct (assoc act_id_motor_group_index_map a) as [i|] eqn:Hi;
      try reflexivity.
    destruct (String.eqb_spec (prefix3 b) "Drv") as [Hpb|];
      destruct (String.eqb_spec (prefix3 a) "Drv") as [Hpa|];
      try reflexivity.
    assert (Hne : i <> j).
    { intros ->. apply Hb. rewrite (index_inj _ _ _ _ Hpb Hpa Hj Hi).
      now left. }
    f_equal. apply list_eq. intros k.
    destruct (decide (i = k)) as [->|Hik];
      destruct (decide (j = k)) as [->|Hjk]; try contradiction;
      repeat first [rewrite list_lookup_alter_eq
                   | rewrite list_lookup_alter_ne by assumption];
      reflexivity.
  - rewrite IH1 by assumption. apply IH2.
    now rewrite <- (keys_Permutation _ _ H1).
Qed.

(** X4. The order in which a demand lists its actuators does not matter:
    on the six-wheeled rover, two demands whose [pos_rad] maps hold the
    same entries in different orders, and likewise their [speed_rads]
    maps, both return normally and leave every motor with the same
    setpoints (the ids being known where their class is acted on). *)
Theorem demand_order_irrelevant (pos pos' speed speed' : Dict.t) (w : world) :
  pos ≡ₚ pos' -> speed ≡ₚ speed' ->
  Dict.wf pos -> Dict.wf speed ->
  ids_ok "Str" pos -> ids_ok "Drv" speed ->
  six_wheeled w ->
  let r := actuate_mech_dems (demand pos speed) w in
  let r' := actuate_mech_dems (demand pos' speed') w in
  fst r = Ret tt /\ fst r' = Ret tt /\
  str_motors (snd r) = str_motors (snd r') /\
  drv_motors (snd r) = drv_motors (snd r').
Proof.
  intros Hp Hs Hwp Hws Hokp Hoks Hsix r r'. subst r r'.
  assert (Hokp' : ids_ok "Str" pos') by (unfold ids_ok; now rewrite <- Hp).
  assert (Hoks' : ids_ok "Drv" speed') by (unfold ids_ok; now rewrite <- Hs).
  unfold demand.
  rewrite (actuate_mech_dems_run
             [("pos_rad", PDict pos); ("speed_rads", PDict speed)]%string
             pos speed w eq_refl eq_refl Hokp Hoks Hsix).
  rewrite (actuate_mech_dems_run
             [("pos_rad", PDict pos'); ("speed_rads", PDict speed')]%string
             pos' speed' w eq_refl eq_refl Hokp' Hoks' Hsix).
  simpl. repeat split.
  - now apply apply_pos_perm.
  - now apply apply_speed_perm.
Qed.

(** ** More on the encoder *)

(** X6. [base64.b64encode] loses nothing: decoding its output gives the
    bytes back, whatever their number, and two byte strings with the same
    encoding are equal. *)
Theorem b64encode_round_trip (bs bs' : list byte) :
  b64decode (b64encode bs) = Some bs /\
  (b64encode bs = b64encode bs' -> bs = bs').
Proof.
  split; [apply b64decode_encode|].
  intros H. apply (f_equal b64decode) in H.
  rewrite !b64decode_encode in H. now injection H.
Qed.

Lemma string_get_In (s : string) (i : nat) (c : ascii) :
  String.get i s = Some c -> In c (list_ascii_of_string s).
Proof.
  revert i. induction s as [|x s IH]; intros i; simpl; [discriminate|].
  destruct i as [|i]; [intros [= ->]; now left|].
  intros H. right. now apply IH with i.
Qed.

Lemma b64_char_text (n : N) :
  b64_char n = b64_pad \/ In (b64_char n) (list_ascii_of_string b64_alphabet).
Proof.
  unfold b64_char.
  destruct (String.get (N.to_nat n) b64_alphabet) as [c|] eqn:Hc; [|now left].
  right. now apply string_get_In with (N.to_nat n).
Qed.

(** X7. The text [b64encode] produces has four characters for every
    three bytes begun, and consists of characters of the base64 alphabet
    and the padding sign only, all of them ASCII: the [decode('ascii')]
    applied to it cannot fail. *)
Theorem b64encode_text (bs : list byte) :
  length (b64encode bs) = 4 * ((length bs + 2) / 3) /\
  Forall (fun c => c = b64_pad \/
                   In c (list_ascii_of_string b64_alphabet)) (b64encode bs) /\
  Forall (fun c => nat_of_ascii c < 128) (b64encode bs).
Proof.
  assert (Hascii : forall c,
            c = b64_pad \/ In c (list_ascii_of_string b64_alphabet) ->
            nat_of_ascii c < 128).
  { intros c [->|Hin]; [vm_compute; lia|].
    assert (Hall : Forall (fun c => nat_of_ascii c < 128)
                     (list_ascii_of_string b64_alphabet))
      by (apply Forall_forall; intros x Hx;
          apply list_elem_of_In in Hx; vm_compute in Hx;
          repeat (destruct Hx as [<-|Hx]; [vm_compute; lia|]);
          contradiction).
    rewrite Forall_forall in Hall. apply Hall. now apply list_elem_of_In. }
  assert (Htext : Forall (fun c => c = b64_pad \/
                     In c (list_ascii_of_string b64_alphabet)) (b64encode bs)).
  { induction bs as [|a|a b|a b c rest IH] using list_ind3;
      cbn [b64encode]; unfold sextets3; cbn [map take app].
    - constructor.
    - repeat (apply Forall_cons_2; [first [apply b64_char_text|now left]|]).
      constructor.
    - repeat (apply Forall_cons_2; [first [apply b64_char_text|now left]|]).
      constructor.
    - repeat (apply Forall_cons_2; [apply b64_char_text|]). exact IH. }
  repeat split.
  - clear Htext.
    induction bs as [|a|a b|a b c rest IH] using list_ind3;
      cbn [b64encode]; unfold sextets3; cbn [map take app length].
    + reflexivity.
    + reflexivity.
    + reflexivity.
    + rewrite IH.
      replace (S (S (S (length rest))) + 2) with ((length rest + 2) + 1 * 3)
        by lia.
      rewrite Nat.div_add by discriminate. lia.
  - exact Htext.
  - eapply Forall_impl; [exact Htext|]. exact Hascii.
Qed.

Lemma reindex_channels_twice (k : nat) : forall l : list byte,
  length l = 4 * k -> reindex_channels (reindex_channels l) = l.
Proof.
  induction k as [|k IH]; intros l Hl.
  - destruct l; [reflexivity|discriminate].
  - destruct l as [|c0 [|c1 [|c2 [|c3 rest]]]]; try (simpl in Hl; lia).
    cbn [reindex_channels channel_order map nth app].
    rewrite IH; [reflexivity|simpl in Hl; lia].
Qed.

(** X8. The channel reindexing [[2,1,0,3]] is its own inverse on a buffer
    of whole pixels: applied twice it gives the buffer back (B,G,R,A to
    R,G,B,A and back), and it keeps the number of bytes. *)
Theorem reindex_channels_involution (l : list byte) (k : nat) :
  length l = 4 * k ->
  reindex_channels (reindex_channels l) = l /\
  length (reindex_channels l) = length l.
Proof.
  intros Hl. split.
  - now apply reindex_channels_twice with k.
  - now apply reindex_channels_length with k.
Qed.


(** ** More on the camera relay *)

(** X10. [handle_cam_send] replies all or nothing: when it raises, for
    whatever reason and at whatever camera, the relay is exactly as before
    and nothing has been sent; when it returns, the reply socket owed a
    reply, one message with the whole reply has gone out, the socket owes
    nothing any more, and the pipe, the flag and the pending client frames
    are as before. *)
Theorem handle_cam_send_all_or_nothing
    (image_save : string -> ndarray -> outcome (list byte))
    (cam_data : pyval) (r : relay) :
  (forall e r',
     handle_cam_send image_save cam_data r = (Raise e, r') -> r' = r) /\
  (forall r',
     handle_cam_send image_save cam_data r = (Ret tt, r') ->
     awaiting_reply (cam_rep r) = true /\
     exists its res,
       items cam_data = Ret its /\
       build_res image_save cam_data its [] = Ret res /\
       r' = Relay (RepSocket (inbox (cam_rep r)) false) (cam_pipe r)
                  (handling_req r) (trace r ++ [ClientSend (PDict res)])).
Proof.
  unfold handle_cam_send, mbind, M_bind, bind, lift, cam_send.
  destruct (items cam_data) as [its|e0];
    [destruct (build_res image_save cam_data its []) as [res|e1] eqn:Hb;
     [destruct (serializable (PDict res));
      [destruct (awaiting_reply (cam_rep r)) eqn:Haw|]|]|];
    (split; [intros e r' Heq|intros r' Heq]); simplify_eq; eauto 10.
Qed.

Lemma build_res_no_cameras
    (image_save : string -> ndarray -> outcome (list byte))
    (cam_data : pyval) (its acc : Dict.t) :
  Forall (fun kv => fst kv = "format"%string) its ->
  build_res image_save cam_data its acc = Ret acc.
Proof.
  induction 1 as [|[k v] its Hk _ IH]; [reflexivity|].
  simpl in Hk. subst k. cbn [build_res]. exact IH.
Qed.

(** X11. A bundle without cameras, as a request with an empty camera list
    gives, is answered with the empty object [{}], whatever its format
    specifier is, and without the codec being asked: the specifier is only
    looked at when there is a frame to encode. *)
Theorem handle_cam_send_no_cameras
    (image_save : string -> ndarray -> outcome (list byte))
    (bundle : Dict.t) (r : relay) :
  Forall (fun kv => fst kv = "format"%string) bundle ->
  awaiting_reply (cam_rep r) = true ->
  handle_cam_send image_save (PDict bundle) r =
  (Ret tt,
   Relay (RepSocket (inbox (cam_rep r)) false) (cam_pipe r)
         (handling_req r) (trace r ++ [ClientSend (PDict [])])).
Proof.
  intros Hall Haw.
  unfold handle_cam_send, mbind, M_bind, bind, lift, items, cam_send.
  rewrite (build_res_no_cameras image_save _ _ _ Hall).
  cbn [serializable forallb]. now rewrite Haw.
Qed.

(** The loop of [handle_cam_send] at the first camera of the bundle. *)
Lemma build_res_first_camera
    (image_save : string -> ndarray -> outcome (list byte))
    (cam_data : pyval) (pre post : Dict.t) (cam_id : string) (data : pyval) :
  Forall (fun kv => fst kv = "format"%string) pre ->
  cam_id <> "format"%string ->
  forall acc,
    build_res image_save cam_data (pre ++ (cam_id, data) :: post) acc =
    (entry ← encode_camera image_save cam_data data;
     build_res image_save cam_data post (Dict.set acc cam_id entry)).
Proof.
  intros Hpre Hid. induction Hpre as [|[k v] pre Hk _ IH]; intros acc.
  - cbn [app build_res].
    now destruct (String.eqb_spec cam_id "format").
  - cbn in Hk. subst k. cbn [app build_res String.eqb]. apply IH.
Qed.

Lemma encode_camera_refused
    (image_save : string -> ndarray -> outcome (list byte))
    (bundle : Dict.t) (fmt : pyval) (name : string) (e : exn) (v : pyval) :
  Dict.get bundle "format" = Some fmt ->
  format_name fmt = Ret name ->
  frame_ok v = true ->
  codec_refuses image_save name e v ->
  encode_camera image_save (PDict bundle) v = Raise e.
Proof.
  intros Hf Hn Hok (a & Ha & Hbad).
  destruct (frame_ok_inv v Hok)
    as (d & raw & h & w & ts & -> & Hr & Hh & Hw & Ht & H0h & H0w & Hlen & _).
  cbn in Ha. rewrite Hr, Hh, Hw in Ha. injection Ha as <-.
  rewrite (encode_camera_frame image_save bundle d fmt raw h w ts)
    by assumption.
  rewrite Hn. unfold spec_entry. cbn. now rewrite Hbad.
Qed.

(** X12. A format the codec refuses fails the whole batch.  When the
    first camera of the bundle holds a well-formed frame and the codec
    raises for the requested format name on its image, [handle_cam_send]
    raises the codec's exception and sends no reply, whatever the other
    cameras hold; and the turn of the relay loop that took this bundle off
    the pipe ends with that exception, the request still flagged as being
    handled. *)
Theorem unsupported_format_fails_batch
    (image_save : string -> ndarray -> outcome (list byte))
    (pre post : Dict.t) (cam_id : string) (data fmt : pyval) (name : string)
    (e : exn) (r : relay) :
  Dict.get (pre ++ (cam_id, data) :: post) "format" = Some fmt ->
  format_name fmt = Ret name ->
  Forall (fun kv => fst kv = "format"%string) pre ->
  cam_id <> "format"%string ->
  frame_ok data = true ->
  codec_refuses image_save name e data ->
  handle_cam_send image_save (PDict (pre ++ (cam_id, data) :: post)) r =
  (Raise e, r) /\
  (forall q,
     cam_pipe r = PDict (pre ++ (cam_id, data) :: post) :: q ->
     cam_iter image_save r =
     (Raise e,
      Relay (cam_rep r) q (handling_req r)
            (trace r ++ [PipeRecv (PDict (pre ++ (cam_id, data) :: post))]))).
Proof.
  intros Hf Hn Hpre Hid Hok Hbad.
  assert (Hsend : forall r0,
            handle_cam_send image_save
              (PDict (pre ++ (cam_id, data) :: post)) r0 = (Raise e, r0)).
  { intros r0. unfold handle_cam_send, mbind, M_bind, bind, lift, items.
    rewrite (build_res_first_camera image_save _ pre post cam_id data
               Hpre Hid).
    now rewrite (encode_camera_refused image_save _ fmt name e data). }
  split; [apply Hsend|].
  intros q Hq. unfold cam_iter, pipe_poll_recv.
  unfold mbind at 1. unfold M_bind, bind at 1. rewrite Hq.
  cbn [is_stop]. unfold mbind at 1. unfold M_bind, bind at 1.
  unfold mbind at 1. unfold M_bind, bind at 1.
  now rewrite Hsend.
Qed.

(** X13. [STOP] ends the relay at once: when the message at the head of
    the pipe is the string [STOP], the relay closes the pipe and stops
    without a receive or a send on the client socket in that turn, ignores
    whatever arrives later, and leaves what it was doing undone: the
    [handling_req] flag, a reply owed to the client and the client's
    pending frames stay as they were. *)
Theorem cam_process_stop
    (image_save : string -> ndarray -> outcome (list byte))
    (a : arrival) (env : list arrival) (q : list pyval) (r : relay) :
  cam_pipe r ++ from_main a = PStr "STOP" :: q ->
  cam_process image_save (a :: env) r =
  (Ret Stopped,
   Relay (RepSocket (inbox (cam_rep r) ++ from_client a)
                    (awaiting_reply (cam_rep r)))
         q (handling_req r)
         (trace r ++ [PipeRecv (PStr "STOP"); PipeClose])).
Proof.
  intros Hq. unfold cam_process. cbn [cam_loop].
  unfold deliver, cam_iter, pipe_poll_recv, mbind, M_bind, bind.
  cbn [cam_pipe]. rewrite Hq. cbn.
  now rewrite <- app_assoc.
Qed.

Lemma cam_loop_wedged
    (image_save : string -> ndarray -> outcome (list byte))
    (env : list arrival) : forall r,
  Forall (fun a => from_main a = []) env ->
  cam_pipe r = [] -> handling_req r = false ->
  awaiting_reply (cam_rep r) = true ->
  cam_loop image_save env r =
  (Ret Running,
   Relay (RepSocket (inbox (cam_rep r) ++ concat (map from_client env)) true)
         [] false
         (trace r ++ replicate (length env) (ClientRecv ZmqErr))).
Proof.
  induction env as [|a env IH]; intros [[inb aw] pipe hr tr] Hall Hp Hh Haw;
    simpl in Hp, Hh, Haw; subst.
  - simpl. now rewrite !app_nil_r.
  - inversion Hall as [|? ? Ha Hall']; subst.
    cbn [cam_loop].
    unfold deliver, cam_iter, pipe_poll_recv, cam_recv, get_handling_req,
      recv_json, mbind, M_bind, bind.
    cbn. rewrite Ha. cbn.
    rewrite IH by (try assumption; reflexivity). cbn.
    now rewrite <- !app_assoc.
Qed.

(** X14. A client frame that does not decode, or that decodes to [None]
    (the JSON text [null]), blocks the camera channel: the relay takes the
    frame off the socket and forwards nothing, so the main process never
    answers and the reply socket owes a reply for good.  In every later
    turn, as long as nothing comes from the main process, the only event is
    a failed receive; the frames the client sends meanwhile pile up unread,
    and no reply is ever sent. *)
Theorem undecodable_request_blocks_relay
    (image_save : string -> ndarray -> outcome (list byte))
    (a : arrival) (env : list arrival) (f : frame) (q : list frame)
    (r : relay) :
  f = Garbled \/ f = Json PNone ->
  Forall (fun a => from_main a = []) (a :: env) ->
  cam_pipe r = [] -> handling_req r = false ->
  awaiting_reply (cam_rep r) = false ->
  inbox (cam_rep r) ++ from_client a = f :: q ->
  cam_process image_save (a :: env) r =
  (Ret Running,
   Relay (RepSocket (q ++ concat (map from_client env)) true) [] false
         (trace r
          ++ ClientRecv (match f with Json v => Loaded v | _ => OtherExc end)
          :: replicate (length env) (ClientRecv ZmqErr))).
Proof.
  intros Hf Hall Hp Hh Haw Hin.
  destruct r as [[inb aw] pipe hr tr]; simpl in Hp, Hh, Haw, Hin; subst.
  inversion Hall as [|? ? Ha Hall']; subst.
  unfold cam_process. cbn [cam_loop].
  unfold deliver, cam_iter, pipe_poll_recv, cam_recv, get_handling_req,
    recv_json, emit, set_handling_req.
  unfold mbind, M_bind, bind.
  cbn [cam_pipe cam_rep inbox awaiting_reply handling_req trace].
  rewrite Ha, Hin.
  destruct Hf as [-> | ->]; cbn;
    rewrite cam_loop_wedged by (try assumption; reflexivity);
    cbn; now rewrite <- ?app_assoc.
Qed.







(** ** The main process's side: [handle_cam_req] *)

Lemma capture_cons (n : string) (rest : list pyval) (acc : Dict.t) (h : host)
    (c : camera) (raw ht wd : pyval) :
  find_camera (cameras h) n = Some c ->
  getImage c = Ret raw -> getHeight c = Ret ht -> getWidth c = Ret wd ->
  capture (PStr n :: rest) acc h =
  capture rest
    (Dict.set acc n
       (PDict [ ("raw", raw); ("timestamp", PInt (now h (readings h)));
                ("height", ht); ("width", wd) ]%string))
    (Host (cameras h) (host_pipe h) (host_sent h) (now h) (S (readings h))).
Proof.
  intros Hc Hi Hh Hw. cbn [capture].
  unfold camera_of, lift, read_clock, mbind, M_bind, bind.
  now rewrite Hc, Hi, Hh, Hw.
Qed.

Lemma capture_run (names : list string) : forall (acc : Dict.t) (h : host),
  Forall (camera_ready (cameras h)) names ->
  exists out,
    capture (map PStr names) acc h =
    (Ret out,
     Host (cameras h) (host_pipe h) (host_sent h) (now h)
          (readings h + length names)) /\
    (Dict.wf acc -> Dict.wf out) /\
    (forall k, In k (Dict.keys out) <-> In k (Dict.keys acc) \/ In k names) /\
    (forall k, ~ In k names -> Dict.get out k = Dict.get acc k) /\
    (forall k v, In (k, v) out ->
       In (k, v) acc \/
       exists c i, find_camera (cameras h) k = Some c /\
                   readings h <= i < readings h + length names /\
                   snapshot c (now h i) v).
Proof.
  induction names as [|n names IH]; intros acc h Hall.
  - exists acc. cbn. rewrite Nat.add_0_r. destruct h.
    repeat split; auto; tauto.
  - inversion Hall as [|? ? (c & raw & ht & wd & Hc & Hi & Hh & Hw) Hall'];
      subst.
    cbn [map]. rewrite (capture_cons n _ acc h c raw ht wd Hc Hi Hh Hw).
    match goal with
    | |- context [capture _ ?acc' ?h'] =>
        destruct (IH acc' h' Hall') as (out & Hrun & Hwf & Hkeys & Hget & Hin)
    end.
    cbn [cameras host_pipe host_sent now readings] in *.
    exists out. rewrite Hrun. cbn [length].
    replace (S (readings h) + length names)
      with (readings h + S (length names)) by lia.
    split; [reflexivity|]. split; [|split; [|split]].
    + intros Hacc. now apply Hwf, wf_set.
    + intros k. rewrite Hkeys, In_keys_set. cbn [In]. intuition.
    + intros k Hk. cbn [In] in Hk.
      rewrite Hget by tauto. apply get_set_ne. intros ->. tauto.
    + intros k v Hkv. destruct (Hin k v Hkv) as [Hset|(c' & i & ? & ? & ?)].
      * apply In_set in Hset as [[-> ->]|Hacc]; [|now left].
        right. exists c, (readings h). split; [exact Hc|].
        split; [lia|]. now exists raw, ht, wd.
      * right. exists c', i. split; [assumption|]. split; [lia|assumption].
Qed.

(** X16. A request that carries a format and names cameras the simulator
    serves is answered on the pipe with one bundle.  The bundle holds the
    request's format under [format] and one entry for each camera named,
    however often it is named, and no other key; every entry is the image,
    height and width of the camera of that name with a timestamp read from
    the clock during this call.  The clock is read once for each name in
    the request, the request is taken off the pipe, and the cameras are
    not changed. *)
Theorem handle_cam_req_bundle
    (h : host) (req : Dict.t) (q : list pyval) (fmt cams : pyval)
    (names : list string) :
  host_pipe h = PDict req :: q ->
  Dict.get req "format" = Some fmt ->
  Dict.get req "cameras" = Some cams ->
  iterate cams = Ret (map PStr names) ->
  Forall (camera_ready (cameras h)) names ->
  find_camera (cameras h) "format" = None ->
  exists bundle,
    handle_cam_req h =
    (Ret tt,
     Host (cameras h) q (host_sent h ++ [PDict bundle]) (now h)
          (readings h + length names)) /\
    Dict.wf bundle /\
    Dict.get bundle "format" = Some fmt /\
    (forall k, In k (Dict.keys bundle) <-> k = "format"%string \/ In k names) /\
    (forall k v, In (k, v) bundle -> k <> "format"%string ->
       exists c i, find_camera (cameras h) k = Some c /\
                   readings h <= i < readings h + length names /\
                   snapshot c (now h i) v).
Proof.
  intros Hp Hf Hc Hit Hall Hnf.
  destruct (capture_run names [("format", fmt)]%string
              (Host (cameras h) q (host_sent h) (now h) (readings h)) Hall)
    as (bundle & Hrun & Hwf & Hkeys & Hget & Hin).
  cbn [cameras host_pipe host_sent now readings] in *.
  exists bundle. split; [|split; [|split; [|split]]].
  - unfold handle_cam_req, host_poll_recv, host_send, lift, getitem,
      mbind, M_bind, bind.
    rewrite Hp, Hf, Hc. cbn [outcome_bind]. unfold mbind, outcome_bind.
    rewrite Hit, Hrun. reflexivity.
  - apply Hwf. apply NoDup_singleton.
  - rewrite Hget; [reflexivity|].
    intros Hin'. rewrite Forall_forall in Hall.
    apply list_elem_of_In in Hin'.
    destruct (Hall _ Hin') as (c & ? & ? & ? & Hc' & _). congruence.
  - intros k. rewrite Hkeys. cbn. intuition.
  - intros k v Hkv Hk. destruct (Hin k v Hkv) as [[[= <- _]|[]]|H]; tauto.
Qed.

Lemma capture_frame (ids : list pyval) : forall (acc : Dict.t) (h : host),
  cameras (snd (capture ids acc h)) = cameras h /\
  host_pipe (snd (capture ids acc h)) = host_pipe h /\
  host_sent (snd (capture ids acc h)) = host_sent h /\
  now (snd (capture ids acc h)) = now h /\
  readings h <= readings (snd (capture ids acc h)) <= readings h + length ids.
Proof.
  induction ids as [|cam_id ids IH]; intros acc h.
  - cbn. repeat split; lia.
  - cbn [capture length].
    unfold lift, read_clock, mbind, M_bind, bind.
    destruct (camera_of (cameras h) cam_id) as [[name cam]|e];
      [|cbn; repeat split; lia].
    destruct (getImage cam) as [raw|e]; [|cbn; repeat split; lia].
    destruct (getHeight cam) as [ht|e]; [|cbn; repeat split; lia].
    destruct (getWidth cam) as [wd|e]; [|cbn; repeat split; lia].
    match goal with
    | |- context [capture ids ?acc' ?h'] =>
        destruct (IH acc' h') as (Hc & Hp & Hs & Hn & Hr)
    end.
    cbn [cameras host_pipe host_sent now readings] in *.
    repeat split; try assumption; lia.
Qed.

Lemma capture_no_camera (ids : list pyval) : forall (acc : Dict.t) (h : host),
  Exists (no_camera (cameras h)) ids ->
  exists e, fst (capture ids acc h) = Raise e.
Proof.
  induction ids as [|cam_id ids IH]; intros acc h Hex;
    inversion Hex as [? ? Hno|? ? Hex']; subst;
    cbn [capture]; unfold lift, read_clock, mbind, M_bind, bind.
  - assert (Hraise : exists e, camera_of (cameras h) cam_id = Raise e).
    { unfold camera_of. destruct cam_id; eauto.
      now rewrite (Hno _ eq_refl); eauto. }
    destruct Hraise as (e & ->). cbn. eauto.
  - destruct (camera_of (cameras h) cam_id) as [[name cam]|e]; [|cbn; eauto].
    destruct (getImage cam) as [raw|e]; [|cbn; eauto].
    destruct (getHeight cam) as [ht|e]; [|cbn; eauto].
    destruct (getWidth cam) as [wd|e]; [|cbn; eauto].
    apply IH. exact Hex'.
Qed.

(** What [handle_cam_req] leaves behind, in every case: the cameras as they
    were, the pipe without the request it took, and on the sending side
    nothing new, or one dictionary when it returns from a request. *)
Lemma handle_cam_req_frame (h : host) :
  cameras (snd (handle_cam_req h)) = cameras h /\
  host_pipe (snd (handle_cam_req h)) = tl (host_pipe h) /\
  now (snd (handle_cam_req h)) = now h /\
  (host_sent (snd (handle_cam_req h)) = host_sent h \/
   exists bundle,
     host_pipe h <> [] /\ fst (handle_cam_req h) = Ret tt /\
     host_sent (snd (handle_cam_req h)) = host_sent h ++ [PDict bundle]) /\
  (forall e, fst (handle_cam_req h) = Raise e ->
             host_sent (snd (handle_cam_req h)) = host_sent h).
Proof.
  unfold handle_cam_req, host_poll_recv, host_send, lift,
    mbind, M_bind, bind.
  destruct (host_pipe h) as [|cam_req q] eqn:Hp.
  - cbn. rewrite ?Hp. repeat split; auto.
  - destruct (getitem cam_req "format") as [fmt|e];
      [|cbn; repeat split; auto].
    match goal with
    | |- context [outcome_bind ?A ?B ?f ?x] =>
        destruct (outcome_bind A B f x) as [ids|e]
    end; [|cbn; repeat split; auto].
    match goal with
    | |- context [capture ids ?acc' ?h'] =>
        pose proof (capture_frame ids acc' h') as (Hc & Hq & Hs & Hn & _);
        destruct (capture ids acc' h') as [[bundle|e] h1]
    end; cbn [snd fst cameras host_pipe host_sent now readings tl] in *.
    + repeat split; auto; [|discriminate].
      right. exists bundle. rewrite Hs. repeat split. discriminate.
    + repeat split; auto.
Qed.

(** X17. A request the main process cannot serve makes [handle_cam_req]
    raise, and the request is lost: it has left the pipe and nothing is
    sent back, so the relay waits for a bundle that does not come.  This
    is so for a request that is not an object ([TypeError]), for an object
    without [format] or without [cameras] ([KeyError]), and for a request
    naming anything that is not a key of [self.cameras]: an unknown name,
    a number, or the characters of a string given in place of a list. *)
Theorem handle_cam_req_failure (h : host) (cam_req : pyval) (q : list pyval) :
  host_pipe h = cam_req :: q ->
  (forall e h',
     handle_cam_req h = (Raise e, h') ->
     cameras h' = cameras h /\ host_pipe h' = q /\
     host_sent h' = host_sent h) /\
  (is_dict cam_req = false ->
   handle_cam_req h =
   (Raise TypeError,
    Host (cameras h) q (host_sent h) (now h) (readings h))) /\
  (forall d,
     cam_req = PDict d ->
     Dict.get d "format" = None \/ Dict.get d "cameras" = None ->
     handle_cam_req h =
     (Raise KeyError,
      Host (cameras h) q (host_sent h) (now h) (readings h))) /\
  (forall d fmt cams ids,
     cam_req = PDict d ->
     Dict.get d "format" = Some fmt ->
     Dict.get d "cameras" = Some cams ->
     iterate cams = Ret ids ->
     Exists (no_camera (cameras h)) ids ->
     exists e h', handle_cam_req h = (Raise e, h')).
Proof.
  intros Hp. split; [|split; [|split]].
  - intros e h' Hrun.
    destruct (handle_cam_req_frame h) as (Hc & Hq & _ & _ & Hs).
    rewrite Hrun, Hp in *. cbn [fst snd tl] in *. eauto.
  - intros Hnd.
    unfold handle_cam_req, host_poll_recv, lift, mbind, M_bind, bind.
    rewrite Hp. destruct cam_req; try discriminate; reflexivity.
  - intros d -> Hmiss.
    unfold handle_cam_req, host_poll_recv, lift, getitem,
      mbind, M_bind, bind.
    rewrite Hp. destruct Hmiss as [Hm|Hm].
    + now rewrite Hm.
    + destruct (Dict.get d "format"); rewrite ?Hm; reflexivity.
  - intros d fmt cams ids -> Hf Hc Hit Hex.
    unfold handle_cam_req, host_poll_recv, host_send, lift, getitem,
      mbind, M_bind, bind.
    rewrite Hp, Hf, Hc. cbn [outcome_bind]. unfold mbind, outcome_bind.
    rewrite Hit.
    match goal with
    | |- context [capture ids ?acc' ?h'] =>
        destruct (capture_no_camera ids acc' h' Hex) as (e & He);
        destruct (capture ids acc' h') as [o h1]
    end.
    cbn [fst] in He. subst o. eauto.
Qed.

(** ** The main loop: [run] *)

Lemma run_loop_sent (ticks : list tick) : forall c : controller,
  exists sent,
    host_sent (host_of (snd (run_loop ticks c))) =
    host_sent (host_of c) ++ sent /\
    Forall (fun m => is_dict m = true) sent /\
    length sent <= length ticks /\
    match fst (run_loop ticks c) with
    | Ret Stopped =>
        exists pre t post,
          ticks = pre ++ t :: post /\
          Forall (fun t => step_ok t = true) pre /\ step_ok t = false
    | Ret Running => Forall (fun t => step_ok t = true) ticks
    | Raise _ => True
    end.
Proof.
  induction ticks as [|t ticks IH]; intros c.
  - exists []. cbn. rewrite app_nil_r. auto.
  - cbn [run_loop].
    unfold arrive, on_rover, on_host, mbind, M_bind, bind.
    cbn [rover_of host_of].
    match goal with
    | |- context [handle_mech ?w] => destruct (handle_mech w) as [[b|e] w']
    end; cbn [rover_of host_of fst snd];
      [|exists []; cbn; rewrite app_nil_r; repeat split; auto; lia].
    match goal with
    | |- context [handle_cam_req ?h] =>
        pose proof (handle_cam_req_frame h) as (_ & _ & _ & Hs & _);
        destruct (handle_cam_req h) as [[[]|e] h']
    end; cbn [rover_of host_of fst snd host_sent] in *.
    + destruct (step_ok t) eqn:Hstep.
      * destruct (IH (Controller w' h')) as (sent & Hsent & Hd & Hlen & Hres).
        cbn [host_of] in Hsent.
        destruct Hs as [Hs|(bundle & _ & _ & Hs)]; rewrite Hs in Hsent.
        -- exists sent. split; [exact Hsent|]. split; [exact Hd|].
           split; [cbn; lia|].
           destruct (fst (run_loop ticks (Controller w' h'))) as [[]|];
             auto.
           destruct Hres as (pre & t' & post & -> & Hpre & Ht').
           exists (t :: pre), t', post. repeat split; auto.
        -- exists (PDict bundle :: sent). rewrite Hsent, <- app_assoc.
           split; [reflexivity|]. split; [now constructor|].
           split; [cbn; lia|].
           destruct (fst (run_loop ticks (Controller w' h'))) as [[]|];
             auto.
           destruct Hres as (pre & t' & post & -> & Hpre & Ht').
           exists (t :: pre), t', post. repeat split; auto.
      * unfold ret. cbn [fst snd host_of].
        destruct Hs as [Hs|(bundle & _ & _ & Hs)]; rewrite Hs.
        -- exists []. rewrite app_nil_r. repeat split; auto; [cbn; lia|].
           now exists [], t, ticks.
        -- exists [PDict bundle]. repeat split; auto; [cbn; lia|].
           now exists [], t, ticks.
    + destruct Hs as [Hs|(bundle & _ & [=] & _)]. rewrite Hs.
      exists []. rewrite app_nil_r. repeat split; auto. cbn; lia.
Qed.

Lemma run_loop_app (pre post : list tick) : forall c c1 : controller,
  run_loop pre c = (Ret Running, c1) ->
  run_loop (pre ++ post) c = run_loop post c1.
Proof.
  induction pre as [|t pre IH]; intros c c1.
  - cbn. unfold ret. now intros [= <-].
  - cbn [run_loop app].
    unfold arrive, on_rover, on_host, mbind, M_bind, bind.
    cbn [rover_of host_of].
    match goal with
    | |- context [handle_mech ?w] => destruct (handle_mech w) as [[b|e] w']
    end; [|discriminate].
    cbn [rover_of host_of].
    match goal with
    | |- context [handle_cam_req ?h] =>
        destruct (handle_cam_req h) as [[[]|e] h']
    end; [|discriminate].
    destruct (step_ok t); [apply IH|discriminate].
Qed.

(** X19. The main loop runs until the simulator's step fails, and only
    then tells the relay to stop.  Over every schedule of turns: [run]
    returns having left the loop only when some turn's step failed, the
    turns before it having stepped well, and [STOP] is then the last
    message on the pipe, after at most one bundle for each turn; while the
    loop runs, and when an exception of a handler ends it, everything sent
    is a bundle.  And the loop is left at the first turn whose step fails:
    when the turns before went well and the handlers of that turn
    return, [run] ends in the state those handlers left with [STOP]
    added to the pipe, whatever [handle_mech] returned and whatever
    turns would follow, none of which is run. *)
Theorem run_sends_stop_last
    (pre post : list tick) (t : tick) (c c1 : controller)
    (b : bool) (w' : world) (h' : host) :
  (forall ticks c0,
     exists sent,
       Forall (fun m => is_dict m = true) sent /\
       length sent <= length ticks /\
       match fst (run ticks c0) with
       | Ret Stopped =>
           host_sent (host_of (snd (run ticks c0))) =
           host_sent (host_of c0) ++ sent ++ [PStr "STOP"] /\
           exists pre0 t0 post0,
             ticks = pre0 ++ t0 :: post0 /\
             Forall (fun t => step_ok t = true) pre0 /\ step_ok t0 = false
       | Ret Running =>
           host_sent (host_of (snd (run ticks c0))) =
           host_sent (host_of c0) ++ sent /\
           Forall (fun t => step_ok t = true) ticks
       | Raise _ =>
           host_sent (host_of (snd (run ticks c0))) =
           host_sent (host_of c0) ++ sent
       end) /\
  (run_loop pre c = (Ret Running, c1) ->
   step_ok t = false ->
   handle_mech (rover_of (snd (arrive t c1))) = (Ret b, w') ->
   handle_cam_req (host_of (snd (arrive t c1))) = (Ret tt, h') ->
   Forall (fun t => step_ok t = true) pre /\
   run (pre ++ t :: post) c =
   (Ret Stopped,
    Controller w'
      (Host (cameras h') (host_pipe h') (host_sent h' ++ [PStr "STOP"])
            (now h') (readings h')))).
Proof.
  split.
  - intros ticks c0.
    destruct (run_loop_sent ticks c0) as (sent & Hsent & Hd & Hlen & Hres).
    exists sent. split; [exact Hd|]. split; [exact Hlen|].
    unfold run, on_host, host_send, mbind, M_bind, bind.
    destruct (run_loop ticks c0) as [[[]|e] c'];
      cbn [fst snd host_of host_sent] in *.
    + now split.
    + split; [|exact Hres]. now rewrite Hsent, <- app_assoc.
    + exact Hsent.
  - intros Hpre Hstep Hm Hc. split.
    + destruct (run_loop_sent pre c) as (_ & _ & _ & _ & Hres).
      now rewrite Hpre in Hres.
    + unfold run. unfold mbind at 1. unfold M_bind, bind at 1.
      rewrite (run_loop_app pre (t :: post) c c1 Hpre).
      cbn [run_loop].
      unfold arrive, on_rover, on_host, host_send, mbind, M_bind, bind, ret
        in *.
      cbn [rover_of host_of fst snd] in *.
      rewrite Hm. cbn [rover_of host_of]. rewrite Hc, Hstep.
      reflexivity.
Qed.

(** X22. An exception of a handler ends the controller.  After any number
    of turns that went well, a turn in which [handle_mech] raises, or in
    which [handle_mech] returns and [handle_cam_req] raises, makes [run]
    raise that exception, whatever the step would have returned and
    whatever turns were to follow; nothing is sent to the camera process
    in that turn, so it is never told to stop. *)
Theorem handler_exception_ends_run
    (pre post : list tick) (t : tick) (c c1 : controller) (e : exn) :
  run_loop pre c = (Ret Running, c1) ->
  fst (handle_mech (rover_of (snd (arrive t c1)))) = Raise e \/
  (fst (handle_mech (rover_of (snd (arrive t c1)))) = Ret true /\
   fst (handle_cam_req (host_of (snd (arrive t c1)))) = Raise e) ->
  fst (run (pre ++ t :: post) c) = Raise e /\
  host_sent (host_of (snd (run (pre ++ t :: post) c))) =
  host_sent (host_of c1).
Proof.
  intros Hpre Hraise. unfold run. unfold mbind at 1 3. unfold M_bind, bind.
  rewrite (run_loop_app pre (t :: post) c c1 Hpre).
  cbn [run_loop].
  unfold arrive, on_rover, on_host, mbind, M_bind, bind in *.
  cbn [rover_of host_of fst snd] in *.
  destruct Hraise as [Hm|[Hm Hc]].
  - match goal with
    | |- context [handle_mech ?w] =>
        destruct (handle_mech w) as [o w']
    end. cbn [fst] in Hm. subst o. now cbn.
  - match goal with
    | |- context [handle_mech ?w] =>
        destruct (handle_mech w) as [o w']
    end. cbn [fst] in Hm. subst o. cbn [rover_of host_of].
    match goal with
    | |- context [handle_cam_req ?h] =>
        pose proof (handle_cam_req_frame h) as (_ & _ & _ & _ & Hs);
        destruct (handle_cam_req h) as [o h']
    end. cbn [fst snd host_sent] in *. subst o. cbn.
    split; [reflexivity|]. exact (Hs e eq_refl).
Qed.

(** ** A request from the client to the cameras and back *)




(** ** The rover of [init_eqpt] *)

(** X20. The three tables of the controller agree.  On the rover that
    [init_eqpt] builds, whatever devices the simulator hands out, a demand
    for the steering id [Str]XY and the drive id [Drv]XY of a wheel
    position XY is carried out without error; it sets the position of the
    device named xy[_gimbal] and of no other steering device, and the
    position (to infinity) and velocity of the device named xy[_drive] and
    of no other drive device. *)
Theorem demand_reaches_named_device
    (getMotor : string -> motor) (mech_rep : rep_socket)
    (wheel : string) (x y : pyval) :
  In wheel wheels ->
  let w := init_eqpt getMotor mech_rep in
  let w' := snd (actuate_mech_dems
                   (demand [("Str" +:+ wheel, x)] [("Drv" +:+ wheel, y)]) w) in
  fst (actuate_mech_dems
         (demand [("Str" +:+ wheel, x)] [("Drv" +:+ wheel, y)]) w) = Ret tt /\
  str_motors w' =
  map (fun dev => if String.eqb dev (lower wheel +:+ "_gimbal")
                  then set_position x (getMotor dev) else getMotor dev)
      str_motor_order /\
  drv_motors w' =
  map (fun dev => if String.eqb dev (lower wheel +:+ "_drive")
                  then set_velocity y (set_position float_inf (getMotor dev))
                  else getMotor dev)
      drv_motor_order.
Proof.
  intros Hin. unfold wheels in Hin. cbn [In] in Hin.
  destruct Hin as [<-|[<-|[<-|[<-|[<-|[<-|[]]]]]]];
    vm_compute; repeat split; reflexivity.
Qed.

(** ** Format specifiers the encoder cannot read *)

(** X21. A format specifier that is neither a string nor a mapping with
    at least one key fails the whole batch.  When the first camera of the
    bundle holds a well-formed frame from which the image can be built
    (the codec returns on it for some format name), [handle_cam_send]
    raises [IndexError] for the empty mapping and [AttributeError] for
    every other such specifier, and sends no reply, whatever the other
    cameras hold. *)
Theorem unreadable_format_fails_batch
    (image_save : string -> ndarray -> outcome (list byte))
    (pre post : Dict.t) (cam_id : string) (data fmt : pyval)
    (some_name : string) (r : relay) :
  Dict.get (pre ++ (cam_id, data) :: post) "format" = Some fmt ->
  (forall s, fmt <> PStr s) ->
  (forall k v d, fmt <> PDict ((k, v) :: d)) ->
  Forall (fun kv => fst kv = "format"%string) pre ->
  cam_id <> "format"%string ->
  frame_ok data = true ->
  codec_returns image_save some_name data ->
  handle_cam_send image_save (PDict (pre ++ (cam_id, data) :: post)) r =
  (Raise (match fmt with PDict _ => IndexError | _ => AttributeError end), r).
Proof.
  intros Hf Hs Hd Hpre Hid Hok _.
  assert (Hn : format_name fmt =
               Raise (match fmt with
                      | PDict _ => IndexError
                      | _ => AttributeError
                      end)).
  { destruct fmt as [| | | |s| | |[|[k v] d]]; try reflexivity.
    - now destruct (Hs s).
    - now destruct (Hd k v d). }
  destruct (frame_ok_inv data Hok)
    as (d & raw & h & w & ts & -> & Hr & Hh & Hw & Ht & H0h & H0w & Hlen & _).
  unfold handle_cam_send, mbind, M_bind, bind, lift, items.
  rewrite (build_res_first_camera image_save _ pre post cam_id (PDict d)
             Hpre Hid).
  rewrite (encode_camera_frame image_save _ d fmt raw h w ts) by assumption.
  now rewrite Hn.
Qed.

(** ** The further properties at concrete inputs *)

Lemma handle_mech_outcomes_witness :
  six_wheeled (rover [Json (PDict dems_speed_only)]) /\
  six_wheeled (snd (handle_mech (rover [Json (PDict dems_speed_only)]))) /\
  fst (handle_mech (rover [Json (PDict dems_speed_only)])) = Raise KeyError.
Proof.
  split; [split; reflexivity|].
  destruct (handle_mech_outcomes (rover [Json (PDict dems_speed_only)]))
    as [Hsix _].
  - split; reflexivity.
  - split; [exact Hsix|reflexivity].
Defined.

Lemma handle_mech_not_a_mapping_witness :
  handle_mech (rover [Json (PInt 5)]) =
  (Raise TypeError, acknowledged (rover [Json (PInt 5)])) /\
  handle_mech (rover [Json (PDict [("pos_rad", PInt 1)]%string)]) =
  (Raise AttributeError,
   acknowledged (rover [Json (PDict [("pos_rad", PInt 1)]%string)])).
Proof.
  split.
  - destruct (handle_mech_not_a_mapping (rover [Json (PInt 5)]) (PInt 5)
                eq_refl) as [H _].
    apply H; [discriminate|reflexivity].
  - destruct (handle_mech_not_a_mapping
                (rover [Json (PDict [("pos_rad", PInt 1)]%string)])
                (PDict [("pos_rad", PInt 1)]%string) eq_refl) as [_ H].
    apply (H [("pos_rad", PInt 1)]%string (PInt 1)); reflexivity.
Defined.

Lemma handle_mech_owing_reply_witness :
  (exists w',
     handle_mech (rover_owing [Json dems_fl]) = (Ret true, w') /\
     mech_rep w' = RepSocket [Json dems_fl] true) /\
  awaiting_reply (mech_rep (snd (handle_mech (rover [Garbled])))) = true.
Proof.
  destruct (handle_mech_owing_reply (rover_owing [Json dems_fl])) as [H _].
  destruct (handle_mech_owing_reply (rover [Garbled])) as [_ H'].
  split.
  - destruct (H eq_refl) as (w' & Hrun & Hrep & _).
    exists w'. split; [exact Hrun|exact Hrep].
  - apply H'. left. reflexivity.
Defined.

Lemma demand_order_irrelevant_witness :
  str_motors
    (snd (actuate_mech_dems
            (demand [("StrFL", two); ("StrML", float_zero)]%string
                    [("DrvFL", two)]%string) (rover []))) =
  str_motors
    (snd (actuate_mech_dems
            (demand [("StrML", float_zero); ("StrFL", two)]%string
                    [("DrvFL", two)]%string) (rover []))).
Proof.
  apply (demand_order_irrelevant
           [("StrFL", two); ("StrML", float_zero)]%string
           [("StrML", float_zero); ("StrFL", two)]%string
           [("DrvFL", two)]%string [("DrvFL", two)]%string (rover [])).
  - apply perm_swap.
  - reflexivity.
  - apply NoDup_keys_2. discriminate.
  - unfold Dict.wf. simpl. apply NoDup_singleton.
  - ids_ok_tac.
  - ids_ok_tac.
  - split; reflexivity.
Defined.

Lemma stop_after_demand_witness :
  exists m,
    drv_motors (snd (stop (snd (actuate_mech_dems (PDict dems_mixed)
                                                  (rover [])))))
      !! 0 = Some m /\
    position m = float_inf /\ velocity m = float_zero.
Proof.
  destruct (stop_after_demand dems_mixed
              [("StrFL", two); ("ArmBase", two)]%string
              [("DrvFL", two); ("StrML", two)]%string (rover []))
    as (_ & Hdrv & _).
  - reflexivity.
  - reflexivity.
  - apply NoDup_keys_2. discriminate.
  - ids_ok_tac.
  - ids_ok_tac.
  - split; reflexivity.
  - apply (Hdrv "DrvFL"%string two 0); [left|..]; reflexivity.
Defined.

Lemma b64encode_round_trip_witness :
  b64decode (b64encode [x4d; x61]) = Some [x4d; x61] /\
  (b64encode [x4d; x61] = b64encode [x4d; x61] -> [x4d; x61] = [x4d; x61]).
Proof. exact (b64encode_round_trip [x4d; x61] [x4d; x61]). Defined.

Lemma reindex_channels_involution_witness :
  length [xff; x00; x00; xff] = 4 * 1 /\
  reindex_channels (reindex_channels [xff; x00; x00; xff]) =
  [xff; x00; x00; xff].
Proof.
  split; [reflexivity|].
  apply (reindex_channels_involution [xff; x00; x00; xff] 1). reflexivity.
Defined.


Lemma handle_cam_send_all_or_nothing_witness :
  fst (handle_cam_send plain_save (PDict bundle_png) relay_init) =
  Raise ZMQError /\
  snd (handle_cam_send plain_save (PDict bundle_png) relay_init) = relay_init.
Proof.
  split; [reflexivity|].
  apply (proj1 (handle_cam_send_all_or_nothing plain_save (PDict bundle_png)
                  relay_init) ZMQError).
  reflexivity.
Defined.

Lemma handle_cam_send_no_cameras_witness :
  handle_cam_send png_only (PDict [("format", PStr "tiff")]%string)
    (Relay (RepSocket [] true) [] true []) =
  (Ret tt, Relay (RepSocket [] false) [] true [ClientSend (PDict [])]).
Proof.
  apply (handle_cam_send_no_cameras png_only [("format", PStr "tiff")]%string
           (Relay (RepSocket [] true) [] true [])).
  - apply Forall_cons_2; [reflexivity|apply Forall_nil_2].
  - reflexivity.
Defined.

Lemma unsupported_format_fails_batch_witness :
  handle_cam_send png_only (PDict bundle_tiff)
    (Relay (RepSocket [] true) [] true []) =
  (Raise CodecError, Relay (RepSocket [] true) [] true []).
Proof.
  refine (proj1 (unsupported_format_fails_batch png_only
                   [("format", PStr "tiff")]%string [] "LeftNav"
                   (PDict frame_1x1) (PStr "tiff") "tiff" CodecError
                   (Relay (RepSocket [] true) [] true [])
                   eq_refl eq_refl _ _ eq_refl _)).
  - apply Forall_cons_2; [reflexivity|apply Forall_nil_2].
  - discriminate.
  - eexists. split; reflexivity.
Defined.

Lemma cam_process_stop_witness :
  cam_process plain_save [Arrival [PStr "STOP"] [Json cam_req_png]]
    relay_init =
  (Ret Stopped,
   Relay (RepSocket [Json cam_req_png] false) [] false
         [PipeRecv (PStr "STOP"); PipeClose]).
Proof.
  apply (cam_process_stop plain_save
           (Arrival [PStr "STOP"] [Json cam_req_png]) [] [] relay_init).
  reflexivity.
Defined.

Lemma undecodable_request_blocks_relay_witness :
  cam_process plain_save
    [Arrival [] [Json PNone]; Arrival [] [Json cam_req_png]; Arrival [] []]
    relay_init =
  (Ret Running,
   Relay (RepSocket [Json cam_req_png] true) [] false
         [ClientRecv (Loaded PNone); ClientRecv ZmqErr; ClientRecv ZmqErr]).
Proof.
  apply (undecodable_request_blocks_relay plain_save
           (Arrival [] [Json PNone])
           [Arrival [] [Json cam_req_png]; Arrival [] []]
           (Json PNone) [] relay_init).
  - right. reflexivity.
  - repeat (apply Forall_cons_2; [reflexivity|]). apply Forall_nil_2.
  - reflexivity.
  - reflexivity.
  - reflexivity.
  - reflexivity.
Defined.

Lemma handle_cam_req_bundle_witness :
  exists bundle,
    host_sent (snd (handle_cam_req (host_with [cam_req_png]))) =
    [PDict bundle] /\
    Dict.get bundle "format" = Some (PStr "png") /\
    (forall k, In k (Dict.keys bundle) <->
               k = "format"%string \/ In k ["LeftNav"%string]).
Proof.
  destruct (handle_cam_req_bundle (host_with [cam_req_png])
              [("cameras", PList [PStr "LeftNav"]); ("format", PStr "png")]%string
              [] (PStr "png") (PList [PStr "LeftNav"]) ["LeftNav"%string])
    as (bundle & Hrun & _ & Hf & Hk & _).
  - reflexivity.
  - reflexivity.
  - reflexivity.
  - reflexivity.
  - apply Forall_cons_2; [|apply Forall_nil_2].
    exists cam_1x1, (PBytes [xff; x00; x00; xff]), (PInt 1), (PInt 1).
    repeat split; reflexivity.
  - reflexivity.
  - exists bundle. rewrite Hrun. repeat split; auto; apply Hk.
Defined.

Lemma handle_cam_req_failure_witness :
  handle_cam_req (host_with [PStr "LeftNav"]) =
  (Raise TypeError, host_with []) /\
  exists e h',
    handle_cam_req
      (host_with [PDict [("cameras", PStr "LeftNav");
                         ("format", PStr "png")]%string]) = (Raise e, h').
Proof.
  split.
  - destruct (handle_cam_req_failure (host_with [PStr "LeftNav"])
                (PStr "LeftNav") [] eq_refl) as (_ & H & _).
    apply H. reflexivity.
  - destruct (handle_cam_req_failure
                (host_with [PDict [("cameras", PStr "LeftNav");
                                   ("format", PStr "png")]%string])
                (PDict [("cameras", PStr "LeftNav");
                        ("format", PStr "png")]%string) [] eq_refl)
      as (_ & _ & _ & H).
    apply (H [("cameras", PStr "LeftNav"); ("format", PStr "png")]%string
             (PStr "png") (PStr "LeftNav")
             (map PStr ["L"; "e"; "f"; "t"; "N"; "a"; "v"]%string));
      try reflexivity.
    apply Exists_cons_hd. intros n [= <-]. reflexivity.
Defined.


Lemma demand_reaches_named_device_witness :
  str_motors
    (snd (actuate_mech_dems
            (demand [("StrMR", two)]%string [("DrvMR", float_zero)]%string)
            (init_eqpt (fun _ => rest_motor) (RepSocket [] false)))) =
  map (fun dev => if String.eqb dev "mr_gimbal"
                  then set_position two rest_motor else rest_motor)
      str_motor_order.
Proof.
  destruct (demand_reaches_named_device (fun _ => rest_motor)
              (RepSocket [] false) "MR" two float_zero) as (_ & Hstr & _).
  - unfold wheels. simpl. tauto.
  - exact Hstr.
Defined.

Lemma unreadable_format_fails_batch_witness :
  handle_cam_send plain_save (PDict bundle_five)
    (Relay (RepSocket [] true) [] true []) =
  (Raise AttributeError, Relay (RepSocket [] true) [] true []).
Proof.
  refine (unreadable_format_fails_batch plain_save
            [("format", PInt 5)]%string [] "LeftNav" (PDict frame_1x1)
            (PInt 5) "png" (Relay (RepSocket [] true) [] true [])
            eq_refl _ _ _ _ eq_refl _).
  - discriminate.
  - discriminate.
  - apply Forall_cons_2; [reflexivity|apply Forall_nil_2].
  - discriminate.
  - eexists _, _. split; reflexivity.
Defined.

Lemma run_sends_stop_last_witness :
  run [Tick [] [] false; Tick [] [cam_req_png] true]
      (Controller (rover []) (host_with [])) =
  (Ret Stopped,
   Controller (rover [])
     (Host sim_cameras [] [PStr "STOP"]
           (fun k => 1700000000000 + Z.of_nat k)%Z 0)).
Proof.
  destruct (run_sends_stop_last [] [Tick [] [cam_req_png] true]
              (Tick [] [] false)
              (Controller (rover []) (host_with []))
              (Controller (rover []) (host_with []))
              true (rover []) (host_with [])) as [_ H].
  destruct (H eq_refl eq_refl eq_refl eq_refl) as [_ Hrun].
  exact Hrun.
Defined.

Lemma handler_exception_ends_run_witness :
  fst (run [Tick [] [] true;
            Tick [Json (PDict dems_speed_only)] [cam_req_png] true;
            Tick [] [] false]
           (Controller (rover []) (host_with []))) = Raise KeyError /\
  host_sent
    (host_of
       (snd (run [Tick [] [] true;
                  Tick [Json (PDict dems_speed_only)] [cam_req_png] true;
                  Tick [] [] false]
                 (Controller (rover []) (host_with []))))) = [].
Proof.
  apply (handler_exception_ends_run
           [Tick [] [] true] [Tick [] [] false]
           (Tick [Json (PDict dems_speed_only)] [cam_req_png] true)
           (Controller (rover []) (host_with []))
           (Controller (rover []) (host_with [])) KeyError).
  - reflexivity.
  - left. reflexivity.
Defined.
